(** * WMW Bill Splitter: ledger accumulation and greedy settlement

    Shallow embedding of [WMWBillSplitter.py]: the [Transaction] class
    ([__init__], [obligation], [__mul__]) and the two loops of [main]
    (balance accumulation and the settlement loop), followed by the
    properties of the specification. *)

From Stdlib Require Import ZArith QArith Qabs List String Bool Lia Lqa.
From Stdlib Require Import Permutation.
Import ListNotations.
Open Scope Q_scope.

(** ** The participant registry

    [WildMan = Enum('WildMan', ['Nishant','Steve','Joe','Elton','John','Dim'])];
    the code names participants by the member names, which are the keys of
    [moneyOwed]; a name outside the registry is a [KeyError] there, so the
    type has the six members and nothing else. *)

Inductive WildMan : Type := Nishant | Steve | Joe | Elton | John | Dim.

Definition WildMan_eqb (a b : WildMan) : bool :=
  match a, b with
  | Nishant, Nishant | Steve, Steve | Joe, Joe
  | Elton, Elton | John, John | Dim, Dim => true
  | _, _ => false
  end.

(** [list(WildMan.__members__.keys())] *)
Definition registry : list WildMan := [Nishant; Steve; Joe; Elton; John; Dim].

Definition participant_count : nat := List.length registry.

(** ** Monetary values *)

Module Money.

(** Modelled from the spec: the [Money] class of the external [money]
    package is not part of the sources.  Following sections 3 and 4.1 of the
    specification a value is an exact amount tagged with a currency code,
    arithmetic is exact, and an operand in another currency is converted
    to the currency of the left operand through a fixed rate table. *)
Record t : Type := mk { amount : Q; currency : string }.

(** [xrates.base = 'USD'] *)
Definition base : string := "USD"%string.

(** [Money('0','USD')] *)
Definition zero : t := mk 0 base.

(** Modelled from the spec: [round(x, ndigits=0)] on an exact decimal,
    ties to the even neighbour (the rounding of Python's [Decimal]). *)
Definition round_half_even (q : Q) : Z :=
  let n := Qnum q in
  let d := Zpos (Qden q) in
  let f := (n / d)%Z in
  let r := (n mod d)%Z in
  match (2 * r ?= d)%Z with
  | Lt => f
  | Gt => (f + 1)%Z
  | Eq => if Z.even f then f else (f + 1)%Z
  end.

(** The amount rounded to the minor unit, kept as a number of cents over 100. *)
Definition round2 (q : Q) : Q := round_half_even (q * 100) # 100.

Definition Qltb (a b : Q) : bool := negb (Qle_bool b a).

Section Rates.
(** Modelled from the spec: the exchange-rate lookup of the [xrates]
    backend, [rate src dst] being the price of one unit of [src] in
    [dst]. *)
Variable rate : string -> string -> Q.

Definition to (m : t) (c : string) : t :=
  if String.eqb (currency m) c then m
  else mk (amount m * rate (currency m) c) c.

(** [a + b] *)
Definition add (a b : t) : t :=
  mk (amount a + amount (to b (currency a))) (currency a).

(** [a - b] *)
Definition sub (a b : t) : t :=
  mk (amount a - amount (to b (currency a))) (currency a).

(** [a < b] *)
Definition ltb (a b : t) : bool :=
  Qltb (amount a) (amount (to b (currency a))).

(** [a > b] *)
Definition gtb (a b : t) : bool :=
  Qltb (amount (to b (currency a))) (amount a).

(** The builtin [min(a, b)]: the first argument unless the second is
    strictly smaller. *)
Definition min (a b : t) : t := if ltb b a then b else a.

(** [a <= b] *)
Definition leb (a b : t) : bool :=
  Qle_bool (amount a) (amount (to b (currency a))).

(** [a >= b] *)
Definition geb (a b : t) : bool :=
  Qle_bool (amount (to b (currency a))) (amount a).
End Rates.

(** [Decimal(p) * m] *)
Definition scale (p : Q) (m : t) : t := mk (p * amount m) (currency m).

(** [abs(m)] *)
Definition abs (m : t) : t := mk (Qabs (amount m)) (currency m).

(** [round(m, ndigits=2)] *)
Definition round (m : t) : t := mk (round2 (amount m)) (currency m).

(** [m.is_zero()] *)
Definition is_zero (m : t) : bool := Qeq_bool (amount m) 0.

(** Modelled from the spec: [a == b] holds for equal amounts in the same
    currency. *)
Definition eqb (a b : t) : bool :=
  (Qeq_bool (amount a) (amount b) && String.eqb (currency a) (currency b))%bool.

(** [a != b] *)
Definition neb (a b : t) : bool := negb (eqb a b).

End Money.

Abbreviation Money := Money.t.

(** ** Transactions *)

(** What a call can raise. *)
Inductive exn : Type := IndexError | ValueError | AssertionError.

Inductive result (A : Type) : Type :=
| Ok (a : A)
| Raise (e : exn).
Arguments Ok {A} a.
Arguments Raise {A} e.

Record Transaction : Type := mkTransaction {
  amt : Money;
  creditor : WildMan;
  recipients : list WildMan;
  split : list Q;
  desc : string
}.

(** The Python quotient [1/n] of the integers [1] and [n > 0]: a float, the
    IEEE 754 double nearest to 1/n, ties to the even significand.  With
    [e = 53 + floor(log2 n)] the quotient [2^e / n] lies in [[2^52, 2^53]],
    so the double is that quotient rounded to an integer, over [2^e].  The
    code only ever uses the float through [Decimal(...)], which converts it
    exactly, so a share is kept as the exact value of the double. *)
Definition float_recip (n : nat) : Q :=
  let e := (53 + Z.log2 (Z.of_nat n))%Z in
  Qred (Money.round_half_even (2 ^ e # Pos.of_nat n) # Z.to_pos (2 ^ e)).

(** [Transaction.__init__]: an absent [recipients] is the whole registry, an
    absent [split] the float [1/len(recipients)] for each recipient. *)
Definition Transaction_init (a : Money) (c : WildMan)
    (rs : option (list WildMan)) (sp : option (list Q)) (d : string)
    : Transaction :=
  let rs' := match rs with Some l => l | None => registry end in
  {| amt := Money.round a;
     creditor := c;
     recipients := rs';
     split := match sp with
              | Some l => l
              | None => map (fun _ => float_recip (List.length rs')) rs'
              end;
     desc := d |}.

(** [wm in l] *)
Definition mem (wm : WildMan) (l : list WildMan) : bool :=
  existsb (WildMan_eqb wm) l.

(** [l.index(wm)]: the position of the first occurrence. *)
Fixpoint index (wm : WildMan) (l : list WildMan) : option nat :=
  match l with
  | [] => None
  | x :: l' =>
      if WildMan_eqb x wm then Some O
      else match index wm l' with Some i => Some (S i) | None => None end
  end.

(** [Transaction.obligation] *)
Definition obligation (t : Transaction) (wm : WildMan) : result Money :=
  if WildMan_eqb (creditor t) wm then Ok (amt t)
  else if mem wm (recipients t) then
    match index wm (recipients t) with
    | None => Raise ValueError
    | Some i =>
        match nth_error (split t) i with
        | None => Raise IndexError
        | Some p => Ok (Money.scale (- p) (amt t))
        end
    end
  else Ok (Money.mk 0 "USD").

(** [Transaction.__mul__] *)
Definition Transaction_mul (t : Transaction) (other : Q) : Money :=
  Money.scale other (amt t).

(** ** The ledger and the two loops of [main] *)

(** The dictionary [moneyOwed]: its keys are the registry members from
    [dict.fromkeys] on, so it is a total map; [items] lists it in key order. *)
Definition ledger : Type := WildMan -> Money.

(** [moneyOwed[k] = v] *)
Definition upd (m : ledger) (k : WildMan) (v : Money) : ledger :=
  fun w => if WildMan_eqb w k then v else m w.

(** [moneyOwed.items()] *)
Definition items (m : ledger) : list (WildMan * Money) :=
  map (fun w => (w, m w)) registry.

(** [moneyOwed.values()] *)
Definition values (m : ledger) : list Money := map m registry.

Inductive outcome : Type :=
| Done (m : ledger) (paymentsToMake : list Transaction)
| Raised (e : exn)
| OutOfFuel.

Section Main.
Variable rate : string -> string -> Q.

(** [dict.fromkeys(WildMan.__members__.keys(), Money('0','USD'))] *)
Definition fromkeys : ledger := fun _ => Money.zero.

(** The body of [for t in transactions]. *)
Definition accumulate1 (m : ledger) (t : Transaction) : ledger :=
  let m1 := upd m (creditor t) (Money.add rate (m (creditor t)) (amt t)) in
  fold_left
    (fun (mo : ledger) (rp : WildMan * Q) =>
       upd mo (fst rp) (Money.sub rate (mo (fst rp)) (Transaction_mul t (snd rp))))
    (combine (recipients t) (split t)) m1.

(** The accumulation loop of [main]. *)
Definition accumulate (transactions : list Transaction) : ledger :=
  fold_left accumulate1 transactions fromkeys.

(** The builtin [min(iterable, key=...)] once a first element is taken:
    a later element replaces the current one only when strictly smaller. *)
Fixpoint min_from (best : WildMan * Money) (l : list (WildMan * Money))
    : WildMan * Money :=
  match l with
  | [] => best
  | x :: l' =>
      if Money.ltb rate (snd x) (snd best) then min_from x l'
      else min_from best l'
  end.

(** The builtin [max(iterable, key=...)]: replaced only when strictly
    greater. *)
Fixpoint max_from (best : WildMan * Money) (l : list (WildMan * Money))
    : WildMan * Money :=
  match l with
  | [] => best
  | x :: l' =>
      if Money.gtb rate (snd x) (snd best) then max_from x l'
      else max_from best l'
  end.

Definition py_min (l : list (WildMan * Money)) : result (WildMan * Money) :=
  match l with
  | [] => Raise ValueError
  | x :: l' => Ok (min_from x l')
  end.

Definition py_max (l : list (WildMan * Money)) : result (WildMan * Money) :=
  match l with
  | [] => Raise ValueError
  | x :: l' => Ok (max_from x l')
  end.

(** [all([round(v, ndigits=2).is_zero() for v in moneyOwed.values()])] *)
Definition all_settled (m : ledger) : bool :=
  forallb (fun v => Money.is_zero (Money.round v)) (values m).

(** One pass through the body of the [while] loop: the new ledger and the
    payment appended, or the exception raised. *)
Definition settle_step (m : ledger) : result (ledger * Transaction) :=
  match py_min (items m), py_max (items m) with
  | Ok biggestDebtor, Ok biggestCreditor =>
      if WildMan_eqb (fst biggestCreditor) (fst biggestDebtor)
      then Raise AssertionError
      else
        let a := Money.min rate (snd biggestCreditor)
                                (Money.abs (snd biggestDebtor)) in
        let m1 := upd m (fst biggestDebtor)
                        (Money.add rate (snd biggestDebtor) a) in
        let m2 := upd m1 (fst biggestCreditor)
                         (Money.sub rate (snd biggestCreditor) a) in
        Ok (m2, Transaction_init a (fst biggestCreditor)
                  (Some [fst biggestDebtor]) None EmptyString)
  | Raise e, _ => Raise e
  | _, Raise e => Raise e
  end.

(** The settlement loop of [main], with [fuel] bounding the number of
    passes through its body. *)
Fixpoint settle (fuel : nat) (m : ledger) (paymentsToMake : list Transaction)
    : outcome :=
  if all_settled m then Done m paymentsToMake
  else
    match fuel with
    | O => OutOfFuel
    | S fuel' =>
        match settle_step m with
        | Raise e => Raised e
        | Ok (m', p) => settle fuel' m' (paymentsToMake ++ [p])
        end
    end.

End Main.

(** ** Rendering and ordering of transactions, and the final check *)

(** The member names, as the code stores and prints them. *)
Definition name (w : WildMan) : string :=
  match w with
  | Nishant => "Nishant" | Steve => "Steve" | Joe => "Joe"
  | Elton => "Elton" | John => "John" | Dim => "Dim"
  end.

(** [sep.join(l)] *)
Fixpoint join (sep : string) (l : list string) : string :=
  match l with
  | [] => EmptyString
  | [x] => x
  | x :: l' => x ++ sep ++ join sep l'
  end.

(** [[r for r in self.recipients if r != self.creditor]] *)
Definition strrecipients (t : Transaction) : list WildMan :=
  filter (fun r => negb (WildMan_eqb r (creditor t))) (recipients t).

(** [idx] in [__str__]; [None] stands for the [-1] of the source. *)
Definition payer_index (t : Transaction) : option nat :=
  if mem (creditor t) (recipients t) then index (creditor t) (recipients t)
  else None.

Section Rendering.
Variable rate : string -> string -> Q.

(** The text of a monetary value, left to the [money] package. *)
Variable show : Money -> string.

(** [stramt] in [__str__] *)
Definition stramt (t : Transaction) : result Money :=
  match payer_index t with
  | None => Ok (amt t)
  | Some i =>
      match nth_error (split t) i with
      | None => Raise IndexError
      | Some p =>
          Ok (Money.round (Money.sub rate (amt t) (Money.scale p (amt t))))
      end
  end.

(** [Transaction.__str__] *)
Definition Transaction_str (t : Transaction) : result string :=
  match stramt t with
  | Raise e => Raise e
  | Ok a =>
      Ok (join " and " (map name (strrecipients t)) ++ " "
          ++ (if (1 <? List.length (strrecipients t))%nat then "owe" else "owes")
          ++ " " ++ name (creditor t) ++ " $" ++ show a ++ " "
          ++ (if String.eqb (desc t) EmptyString then EmptyString
              else "for " ++ desc t))%string
  end.

(** [Transaction.__lt__] *)
Definition Transaction_lt (t other : Transaction) : bool :=
  Money.ltb rate (amt t) (amt other).

(** [Transaction.__gt__] *)
Definition Transaction_gt (t other : Transaction) : bool :=
  Money.gtb rate (amt t) (amt other).

(** [Transaction.__le__] *)
Definition Transaction_le (t other : Transaction) : bool :=
  Money.leb rate (amt t) (amt other).

(** [Transaction.__ge__] *)
Definition Transaction_ge (t other : Transaction) : bool :=
  Money.geb rate (amt t) (amt other).

(** [Transaction.__add__] *)
Definition Transaction_add (t other : Transaction) : Money :=
  Money.add rate (amt t) (amt other).

End Rendering.

(** The last loop of [main]: the participants for whom it prints an
    outstanding balance, each with that balance rounded to cents. *)
Definition outstanding (m : ledger) : list (WildMan * Money) :=
  filter (fun x => Money.neb (snd x) (Money.mk 0 "USD"))
         (map (fun x => (fst x, Money.round (snd x))) (items m)).

(** ** Vocabulary of the properties *)

(** Every balance is expressed in the base currency. *)
Definition ledger_in_base (m : ledger) : Prop :=
  forall w, Money.currency (m w) = Money.base.

(** The sum of all participants' balances. *)
Definition total (m : ledger) : Q :=
  fold_right (fun w s => Money.amount (m w) + s) 0 registry.

(** The balances sum to zero within the rounding tolerance: the sum rounds
    to zero at two decimal places. *)
Definition zero_sum (m : ledger) : Prop :=
  Money.is_zero (Money.round (Money.mk (total m) Money.base)) = true.

(** The number of participants whose balance is not exactly zero. *)
Definition nonzero_count (m : ledger) : nat :=
  List.length (filter (fun w => negb (Qeq_bool (Money.amount (m w)) 0)) registry).

(** The shares a transaction pairs with participant [w], in order. *)
Definition shares_of (t : Transaction) (w : WildMan) : list Q :=
  map snd (filter (fun rp => WildMan_eqb (fst rp) w)
                  (combine (recipients t) (split t))).

Definition Qsum (l : list Q) : Q := fold_right Qplus 0 l.



(** The sum of the shares a transaction pairs with its recipients. *)
Definition share_sum (t : Transaction) : Q :=
  Qsum (map snd (combine (recipients t) (split t))).

Section Runs.
Variable rate : string -> string -> Q.

(** The amount of a value once converted to the base currency. *)
Definition base_amount (v : Money) : Q :=
  Money.amount (Money.to rate v Money.base).

(** [emits m ps m']: started on [m], the settlement loop leaves through its
    guard on [m'], and [ps] lists the payment of each pass through the body,
    the first pass first. *)
Inductive emits : ledger -> list Transaction -> ledger -> Prop :=
| emits_done m :
    all_settled m = true -> emits m [] m
| emits_pass m m1 p ps m' :
    all_settled m = false ->
    settle_step rate m = Ok (m1, p) ->
    emits m1 ps m' ->
    emits m (p :: ps) m'.
End Runs.

(** A rate table with every currency at par, for the examples. *)
Definition par : string -> string -> Q := fun _ _ => 1.

Definition usd (q : Q) : Money := Money.mk q "USD".

(** An amount that is a whole number of cents. *)
Definition whole_cents (q : Q) : Prop := exists z : Z, q == z # 100.

(** What [w] receives, and what [w] pays, when the payments [ps] are made:
    a payment goes from its recipients to its creditor. *)
Definition received (ps : list Transaction) (w : WildMan) : Q :=
  Qsum (map (fun p => Money.amount (amt p))
            (filter (fun p => WildMan_eqb (creditor p) w) ps)).

Definition paid (ps : list Transaction) (w : WildMan) : Q :=
  Qsum (map (fun p => Money.amount (amt p))
            (filter (fun p => mem w (recipients p)) ps)).

(** What one transaction adds to the balance of [w], in the base currency. *)
Definition contribution (rate : string -> string -> Q)
    (t : Transaction) (w : WildMan) : Q :=
  (if WildMan_eqb w (creditor t) then base_amount rate (amt t) else 0)
  - Qsum (map (fun p => p * base_amount rate (amt t)) (shares_of t w)).

(** ** Sample inputs *)

(** [10 USD Nishant "" Steve 0.5]: a single recipient charged half. *)
Definition tx_half : Transaction :=
  Transaction_init (usd 10) Nishant (Some [Steve]) (Some [1#2]) EmptyString.

(** [100 USD <payer> "<d>"]: neither recipients nor split given. *)
Definition tx_even (payer : WildMan) (d : string) : Transaction :=
  Transaction_init (usd 100) payer None None d.

(** [90 USD Nishant "" Nishant,Steve,Joe 0.5,0.25,0.25] *)
Definition tx_uneven : Transaction :=
  Transaction_init (usd 90) Nishant (Some [Nishant; Steve; Joe])
                   (Some [1#2; 1#4; 1#4]) EmptyString.

(** [40 USD Steve "" Joe,Dim 0.5,0.5] *)
Definition tx_pair : Transaction :=
  Transaction_init (usd 40) Steve (Some [Joe; Dim]) (Some [1#2; 1#2])
                   EmptyString.

(** [12.50 EUR Joe "" Dim 1] *)
Definition tx_eur : Transaction :=
  Transaction_init (Money.mk (25#2) "EUR") Joe (Some [Dim]) (Some [1])
                   EmptyString.

(** The ledger with [a] at +30, [b] at -10, [c] at -20 and the others at 0. *)
Definition balances_abc (a b c : WildMan) : ledger :=
  fun w =>
    if WildMan_eqb w a then usd 30
    else if WildMan_eqb w b then usd (-10)
    else if WildMan_eqb w c then usd (-20)
    else usd 0.

(** Every participant at the same balance [q]. *)
Definition balances_flat (q : Q) : ledger := fun _ => usd q.

(** Participant [k] at [q] and the others at 0. *)
Definition balances_single (k : WildMan) (q : Q) : ledger :=
  fun w => if WildMan_eqb w k then usd q else usd 0.

(** Runs the settlement loop on a concrete ledger and names its result. *)
Ltac run_settle rate fuel m :=
  let E := fresh "E" in
  let E0 := fresh "E" in
  destruct (settle rate fuel m []) as [? ?|?|] eqn:E;
  pose proof E as E0; vm_compute in E;
  [injection E as <- <- | discriminate E | discriminate E].

(** * Properties *)

(** ** Participants and rounding *)

Lemma WildMan_eqb_spec (a b : WildMan) : reflect (a = b) (WildMan_eqb a b).
Proof. destruct a, b; constructor; congruence. Qed.

Lemma WildMan_eqb_refl (a : WildMan) : WildMan_eqb a a = true.
Proof. now destruct a. Qed.

Lemma WildMan_eqb_neq (a b : WildMan) : a <> b -> WildMan_eqb a b = false.
Proof. destruct (WildMan_eqb_spec a b); congruence. Qed.

Lemma Qltb_iff (a b : Q) : Money.Qltb a b = true <-> a < b.
Proof.
  unfold Money.Qltb. rewrite negb_true_iff, <- not_true_iff_false, Qle_bool_iff.
  split; [apply Qnot_le_lt | apply Qlt_not_le].
Qed.

Lemma Qltb_false_iff (a b : Q) : Money.Qltb a b = false <-> b <= a.
Proof.
  unfold Money.Qltb. rewrite negb_false_iff. apply Qle_bool_iff.
Qed.

(** Rounding to an integer gives zero exactly on [[-1/2, 1/2]]: both ties go
    to the even neighbour [0]. *)
Lemma round_half_even_zero_iff (q : Q) :
  Money.round_half_even q = 0%Z <-> -(1#2) <= q /\ q <= 1#2.
Proof.
  destruct q as [n d]. unfold Money.round_half_even, Qle. cbn [Qnum Qden Qopp].
  pose proof (Z.div_mod n (Zpos d) ltac:(lia)) as Hdm.
  pose proof (Z.mod_pos_bound n (Zpos d) ltac:(lia)) as Hr.
  set (f := (n / Zpos d)%Z) in *. set (r := (n mod Zpos d)%Z) in *.
  assert (Hodd : Z.even (-1) = false) by reflexivity.
  destruct (Z.compare_spec (2 * r) (Zpos d)) as [He|Hl|Hg].
  - destruct (Z.even f) eqn:Hev.
    + split; [intros ->; lia|]. intros [H1 H2].
      assert (f = 0 \/ f = -1)%Z as [->| ->] by nia; [lia | discriminate].
    + split.
      * intros H. assert (f = -1)%Z by lia. subst f. lia.
      * intros [H1 H2]. assert (f = 0 \/ f = -1)%Z as [Hf|Hf] by nia; [|lia].
        rewrite Hf in Hev. discriminate.
  - split; [intros ->; lia|]. intros [H1 H2]. nia.
  - split; [intros H; assert (f = -1)%Z by lia; subst f; lia |].
    intros [H1 H2]. nia.
Qed.

(** A balance rounds to zero exactly when it is at most half a cent away
    from zero. *)
Lemma is_zero_round_iff (v : Money) :
  Money.is_zero (Money.round v) = true <->
  -(1#200) <= Money.amount v /\ Money.amount v <= 1#200.
Proof.
  unfold Money.is_zero, Money.round, Money.round2. cbn [Money.amount].
  rewrite Qeq_bool_iff.
  assert (forall z, (z # 100) == 0 <-> z = 0%Z) as ->
    by (intros z; unfold Qeq; simpl; lia).
  rewrite round_half_even_zero_iff. split; intros [H1 H2]; split; lra.
Qed.

(** ** Ledgers in the base currency *)

Lemma Qeq_bool_false_iff (a b : Q) : Qeq_bool a b = false <-> ~ a == b.
Proof.
  rewrite <- not_true_iff_false, Qeq_bool_iff. tauto.
Qed.

Lemma total_upd (m : ledger) (k : WildMan) (v : Money) :
  total (upd m k v) == total m - Money.amount (m k) + Money.amount v.
Proof. destruct k; unfold total, upd; simpl; ring. Qed.

Lemma nonzero_count_upd (m : ledger) (k : WildMan) (v : Money) :
  (nonzero_count (upd m k v)
   + (if Qeq_bool (Money.amount (m k)) 0 then 0 else 1)
   = nonzero_count m + (if Qeq_bool (Money.amount v) 0 then 0 else 1))%nat.
Proof.
  destruct k; unfold nonzero_count, upd; simpl;
    repeat match goal with
           | |- context [Qeq_bool ?a 0] => destruct (Qeq_bool a 0)
           end; simpl; lia.
Qed.

Lemma nonzero_count_le (m : ledger) : (nonzero_count m <= participant_count)%nat.
Proof.
  unfold nonzero_count, participant_count. apply filter_length_le.
Qed.

Lemma in_items (m : ledger) (x : WildMan * Money) :
  In x (items m) -> x = (fst x, m (fst x)).
Proof.
  unfold items. rewrite in_map_iff. intros [w [<- _]]. reflexivity.
Qed.

Lemma items_all (m : ledger) (w : WildMan) : In (w, m w) (items m).
Proof.
  unfold items. apply (in_map (fun w => (w, m w))).
  destruct w; simpl; tauto.
Qed.

Lemma all_settled_iff (m : ledger) :
  all_settled m = true <->
  forall w, Money.is_zero (Money.round (m w)) = true.
Proof.
  unfold all_settled, values. rewrite forallb_forall. split.
  - intros H w. apply H, in_map. destruct w; simpl; tauto.
  - intros H v Hv. apply in_map_iff in Hv as [w [<- _]]. apply H.
Qed.

Lemma not_settled_witness (m : ledger) :
  all_settled m = false ->
  exists w, Money.is_zero (Money.round (m w)) = false.
Proof.
  intros H.
  destruct (Money.is_zero (Money.round (m Nishant))) eqn:E1; [|now exists Nishant].
  destruct (Money.is_zero (Money.round (m Steve))) eqn:E2; [|now exists Steve].
  destruct (Money.is_zero (Money.round (m Joe))) eqn:E3; [|now exists Joe].
  destruct (Money.is_zero (Money.round (m Elton))) eqn:E4; [|now exists Elton].
  destruct (Money.is_zero (Money.round (m John))) eqn:E5; [|now exists John].
  destruct (Money.is_zero (Money.round (m Dim))) eqn:E6; [|now exists Dim].
  unfold all_settled, values in H. simpl in H.
  rewrite E1, E2, E3, E4, E5, E6 in H. discriminate.
Qed.

Lemma zero_sum_iff (m : ledger) :
  zero_sum m <-> -(1#200) <= total m /\ total m <= 1#200.
Proof. unfold zero_sum. now rewrite is_zero_round_iff. Qed.

Section Extremes.
Variable rate : string -> string -> Q.

Lemma to_same (v : Money) (c : string) :
  Money.currency v = c -> Money.to rate v c = v.
Proof. intros <-. unfold Money.to. now rewrite String.eqb_refl. Qed.

Lemma min_from_spec (l : list (WildMan * Money)) :
  forall best,
    (forall x, In x (best :: l) -> Money.currency (snd x) = Money.base) ->
    In (min_from rate best l) (best :: l) /\
    forall x, In x (best :: l) ->
              Money.amount (snd (min_from rate best l)) <= Money.amount (snd x).
Proof.
  induction l as [|y l IH]; intros best Hc; cbn [min_from].
  - split; [now left|]. intros x [<-|[]]. apply Qle_refl.
  - assert (Hlt : Money.ltb rate (snd y) (snd best)
                  = Money.Qltb (Money.amount (snd y)) (Money.amount (snd best))).
    { unfold Money.ltb. rewrite to_same; [reflexivity|].
      rewrite (Hc best), (Hc y); simpl; auto. }
    rewrite Hlt.
    destruct (Money.Qltb (Money.amount (snd y)) (Money.amount (snd best))) eqn:E.
    + apply Qltb_iff in E.
      destruct (IH y) as [Hi Hm]; [intros x Hx; apply Hc; now right|].
      split; [now right|].
      intros x [<-|Hx]; [|now apply Hm].
      apply Qle_trans with (Money.amount (snd y)); [apply Hm; now left|].
      now apply Qlt_le_weak.
    + apply Qltb_false_iff in E.
      destruct (IH best) as [Hi Hm].
      { intros x [<-|Hx]; apply Hc; [now left | now right; right]. }
      split; [destruct Hi as [<-|Hi]; [now left | now right; right]|].
      intros x [<-|[<-|Hx]].
      * apply Hm; now left.
      * apply Qle_trans with (Money.amount (snd best)); [apply Hm; now left|exact E].
      * apply Hm; now right.
Qed.

Lemma max_from_spec (l : list (WildMan * Money)) :
  forall best,
    (forall x, In x (best :: l) -> Money.currency (snd x) = Money.base) ->
    In (max_from rate best l) (best :: l) /\
    forall x, In x (best :: l) ->
              Money.amount (snd x) <= Money.amount (snd (max_from rate best l)).
Proof.
  induction l as [|y l IH]; intros best Hc; cbn [max_from].
  - split; [now left|]. intros x [<-|[]]. apply Qle_refl.
  - assert (Hgt : Money.gtb rate (snd y) (snd best)
                  = Money.Qltb (Money.amount (snd best)) (Money.amount (snd y))).
    { unfold Money.gtb. rewrite to_same; [reflexivity|].
      rewrite (Hc best), (Hc y); simpl; auto. }
    rewrite Hgt.
    destruct (Money.Qltb (Money.amount (snd best)) (Money.amount (snd y))) eqn:E.
    + apply Qltb_iff in E.
      destruct (IH y) as [Hi Hm]; [intros x Hx; apply Hc; now right|].
      split; [now right|].
      intros x [<-|Hx]; [|now apply Hm].
      apply Qle_trans with (Money.amount (snd y)); [|apply Hm; now left].
      now apply Qlt_le_weak.
    + apply Qltb_false_iff in E.
      destruct (IH best) as [Hi Hm].
      { intros x [<-|Hx]; apply Hc; [now left | now right; right]. }
      split; [destruct Hi as [<-|Hi]; [now left | now right; right]|].
      intros x [<-|[<-|Hx]].
      * apply Hm; now left.
      * apply Qle_trans with (Money.amount (snd best)); [exact E|apply Hm; now left].
      * apply Hm; now right.
Qed.

(** On a ledger in the base currency the two selections succeed and pick
    a least and a greatest balance. *)
Lemma extremes (m : ledger) :
  ledger_in_base m ->
  exists dk ck,
    py_min rate (items m) = Ok (dk, m dk) /\
    py_max rate (items m) = Ok (ck, m ck) /\
    forall w, Money.amount (m dk) <= Money.amount (m w) /\
              Money.amount (m w) <= Money.amount (m ck).
Proof.
  intros Hb.
  assert (Hc : forall x, In x (items m) -> Money.currency (snd x) = Money.base).
  { intros x Hx. rewrite (in_items m x Hx). apply Hb. }
  assert (Hi : items m = (Nishant, m Nishant) :: tl (items m)) by reflexivity.
  rewrite Hi in Hc.
  destruct (min_from_spec (tl (items m)) _ Hc) as [Hdi Hdm].
  destruct (max_from_spec (tl (items m)) _ Hc) as [Hci Hcm].
  rewrite <- Hi in Hdi, Hdm, Hci, Hcm.
  exists (fst (min_from rate (Nishant, m Nishant) (tl (items m)))),
         (fst (max_from rate (Nishant, m Nishant) (tl (items m)))).
  rewrite <- (in_items m _ Hdi), <- (in_items m _ Hci).
  split; [now rewrite Hi at 1|]. split; [now rewrite Hi at 1|].
  intros w. split.
  - pose proof (Hdm _ (items_all m w)) as H. rewrite (in_items m _ Hdi) in H. exact H.
  - pose proof (Hcm _ (items_all m w)) as H. rewrite (in_items m _ Hci) in H. exact H.
Qed.

End Extremes.

(** ** One pass of the settlement loop *)

Section Pass.
Variable rate : string -> string -> Q.

Lemma amount_add (x a : Money) :
  Money.currency a = Money.currency x ->
  Money.amount (Money.add rate x a) = Money.amount x + Money.amount a.
Proof. intros H. unfold Money.add. now rewrite to_same. Qed.

Lemma amount_sub (x a : Money) :
  Money.currency a = Money.currency x ->
  Money.amount (Money.sub rate x a) = Money.amount x - Money.amount a.
Proof. intros H. unfold Money.sub. now rewrite to_same. Qed.

(** The amount of a pass: the creditor's balance unless the debtor's
    magnitude is strictly smaller. *)
Lemma min_abs_base (m : ledger) (dk ck : WildMan) :
  ledger_in_base m ->
  Money.currency (Money.min rate (m ck) (Money.abs (m dk))) = Money.base /\
  Money.amount (Money.min rate (m ck) (Money.abs (m dk)))
  = if Money.Qltb (Qabs (Money.amount (m dk))) (Money.amount (m ck))
    then Qabs (Money.amount (m dk)) else Money.amount (m ck).
Proof.
  intros Hb. unfold Money.min, Money.ltb.
  rewrite to_same by (simpl; now rewrite !Hb).
  cbn [Money.abs Money.amount].
  destruct (Money.Qltb (Qabs (Money.amount (m dk))) (Money.amount (m ck)));
    split; simpl; auto.
Qed.

Lemma settle_step_shape (m : ledger) :
  ledger_in_base m ->
  exists dk ck,
    (forall w, Money.amount (m dk) <= Money.amount (m w) /\
               Money.amount (m w) <= Money.amount (m ck)) /\
    settle_step rate m =
      if WildMan_eqb ck dk then Raise AssertionError
      else
        let a := Money.min rate (m ck) (Money.abs (m dk)) in
        Ok (upd (upd m dk (Money.add rate (m dk) a)) ck (Money.sub rate (m ck) a),
            Transaction_init a ck (Some [dk]) None EmptyString).
Proof.
  intros Hb. destruct (extremes rate m Hb) as (dk & ck & Hd & Hc & Hx).
  exists dk, ck. split; [exact Hx|].
  unfold settle_step. rewrite Hd, Hc. reflexivity.
Qed.

(** A pass keeps the ledger in the base currency and moves the amount from
    one balance to another, whatever the balances are. *)
Lemma settle_step_total (m m2 : ledger) (p : Transaction) :
  ledger_in_base m ->
  settle_step rate m = Ok (m2, p) ->
  ledger_in_base m2 /\ total m2 == total m.
Proof.
  intros Hb Hs.
  destruct (settle_step_shape m Hb) as (dk & ck & _ & Heq).
  rewrite Heq in Hs. destruct (WildMan_eqb_spec ck dk) as [|Hne]; [discriminate|].
  cbv zeta in Hs. injection Hs as <- _.
  destruct (min_abs_base m dk ck Hb) as [Hac _].
  split.
  - intros w. unfold upd.
    destruct (WildMan_eqb w ck); [apply Hb|].
    destruct (WildMan_eqb w dk); [apply Hb|apply Hb].
  - rewrite !total_upd. unfold upd at 1. rewrite (WildMan_eqb_neq ck dk Hne).
    rewrite amount_add, amount_sub by (now rewrite Hac, Hb). ring.
Qed.

(** On a ledger that sums to zero within tolerance and is not settled, the
    least balance is negative and the greatest positive. *)
Lemma extremes_signs (m : ledger) (dk ck : WildMan) :
  zero_sum m ->
  all_settled m = false ->
  (forall w, Money.amount (m dk) <= Money.amount (m w) /\
             Money.amount (m w) <= Money.amount (m ck)) ->
  Money.amount (m dk) < 0 /\ 0 < Money.amount (m ck).
Proof.
  intros Hz Hn Hx. apply zero_sum_iff in Hz. unfold total in Hz. simpl in Hz.
  destruct (not_settled_witness m Hn) as [w0 Hw].
  apply not_true_iff_false in Hw. rewrite is_zero_round_iff in Hw.
  pose proof (Hx Nishant). pose proof (Hx Steve). pose proof (Hx Joe).
  pose proof (Hx Elton). pose proof (Hx John). pose proof (Hx Dim).
  destruct w0; lra.
Qed.

(** The pass on such a ledger: the assertion holds, the ledger still sums
    to zero within tolerance, one more balance is exactly zero, and the
    selected participant of smaller magnitude is the one zeroed. *)
Lemma settle_step_balanced (m : ledger) :
  ledger_in_base m -> zero_sum m -> all_settled m = false ->
  exists dk ck m2 p,
    py_min rate (items m) = Ok (dk, m dk) /\
    py_max rate (items m) = Ok (ck, m ck) /\
    dk <> ck /\
    settle_step rate m = Ok (m2, p) /\
    ledger_in_base m2 /\ zero_sum m2 /\
    (nonzero_count m2 < nonzero_count m)%nat /\
    (Qabs (Money.amount (m dk)) <= Money.amount (m ck) ->
     Money.amount (m2 dk) == 0) /\
    (Money.amount (m ck) <= Qabs (Money.amount (m dk)) ->
     Money.amount (m2 ck) == 0).
Proof.
  intros Hb Hz Hn.
  destruct (extremes rate m Hb) as (dk & ck & Hd & Hc & Hx).
  destruct (extremes_signs m dk ck Hz Hn Hx) as [Hneg Hpos].
  assert (Hne : ck <> dk) by (intros ->; lra).
  assert (Hs : settle_step rate m =
    Ok (upd (upd m dk (Money.add rate (m dk)
                         (Money.min rate (m ck) (Money.abs (m dk)))))
            ck (Money.sub rate (m ck) (Money.min rate (m ck) (Money.abs (m dk)))),
        Transaction_init (Money.min rate (m ck) (Money.abs (m dk))) ck
                         (Some [dk]) None EmptyString)).
  { unfold settle_step. rewrite Hd, Hc. cbn [fst snd].
    now rewrite (WildMan_eqb_neq ck dk Hne). }
  destruct (settle_step_total m _ _ Hb Hs) as [Hb2 Ht2].
  destruct (min_abs_base m dk ck Hb) as [Hac Haa].
  set (a := Money.min rate (m ck) (Money.abs (m dk))) in *.
  set (m2 := upd _ ck _) in *.
  assert (Habs : Qabs (Money.amount (m dk)) == - Money.amount (m dk))
    by (apply Qabs_neg; lra).
  assert (Hd2 : Money.amount (m2 dk) = Money.amount (m dk) + Money.amount a).
  { unfold m2, upd. rewrite (WildMan_eqb_neq dk ck) by congruence.
    rewrite WildMan_eqb_refl. apply amount_add. now rewrite Hac, Hb. }
  assert (Hc2 : Money.amount (m2 ck) = Money.amount (m ck) - Money.amount a).
  { unfold m2, upd. rewrite WildMan_eqb_refl.
    apply amount_sub. now rewrite Hac, Hb. }
  exists dk, ck, m2, (Transaction_init a ck (Some [dk]) None EmptyString).
  repeat split; auto.
  - apply zero_sum_iff. apply zero_sum_iff in Hz. rewrite Ht2. exact Hz.
  - pose proof (nonzero_count_upd m dk (Money.add rate (m dk) a)) as N1.
    rewrite amount_add in N1 by (now rewrite Hac, Hb).
    assert (N2 : (nonzero_count m2
                  + (if Qeq_bool (Money.amount (m ck)) 0 then 0 else 1)
                  = nonzero_count (upd m dk (Money.add rate (m dk) a))
                    + (if Qeq_bool (Money.amount (m ck) - Money.amount a) 0
                       then 0 else 1))%nat).
    { pose proof (nonzero_count_upd
                    (upd m dk (Money.add rate (m dk) a)) ck
                    (Money.sub rate (m ck) a)) as N.
      replace (upd m dk (Money.add rate (m dk) a) ck) with (m ck) in N
        by (unfold upd; now rewrite (WildMan_eqb_neq ck dk Hne)).
      rewrite amount_sub in N by (now rewrite Hac, Hb). exact N. }
    assert (E1 : Qeq_bool (Money.amount (m dk)) 0 = false)
      by (apply Qeq_bool_false_iff; lra).
    assert (E2 : Qeq_bool (Money.amount (m ck)) 0 = false)
      by (apply Qeq_bool_false_iff; lra).
    rewrite E1 in N1. rewrite E2 in N2.
    destruct (Money.Qltb (Qabs (Money.amount (m dk))) (Money.amount (m ck))) eqn:E.
    + apply Qltb_iff in E.
      assert (E3 : Qeq_bool (Money.amount (m dk) + Money.amount a) 0 = true)
        by (apply Qeq_bool_iff; rewrite Haa, Habs; ring).
      rewrite E3 in N1.
      destruct (Qeq_bool (Money.amount (m ck) - Money.amount a) 0); lia.
    + assert (E3 : Qeq_bool (Money.amount (m ck) - Money.amount a) 0 = true)
        by (apply Qeq_bool_iff; rewrite Haa; ring).
      rewrite E3 in N2.
      destruct (Qeq_bool (Money.amount (m dk) + Money.amount a) 0); lia.
  - intros Hle. rewrite Hd2, Haa.
    destruct (Money.Qltb (Qabs (Money.amount (m dk))) (Money.amount (m ck))) eqn:E.
    + rewrite Habs. ring.
    + apply Qltb_false_iff in E. lra.
  - intros Hle. rewrite Hc2, Haa.
    destruct (Money.Qltb (Qabs (Money.amount (m dk))) (Money.amount (m ck))) eqn:E.
    + apply Qltb_iff in E. lra.
    + ring.
Qed.

End Pass.

(** ** The settlement loop *)

Lemma nonzero_count_two (m : ledger) (dk ck : WildMan) :
  dk <> ck ->
  ~ Money.amount (m dk) == 0 -> ~ Money.amount (m ck) == 0 ->
  (2 <= nonzero_count m)%nat.
Proof.
  intros Hne Hd Hc.
  pose proof (nonzero_count_upd m dk Money.zero) as N1.
  pose proof (nonzero_count_upd (upd m dk Money.zero) ck Money.zero) as N2.
  replace (upd m dk Money.zero ck) with (m ck) in N2
    by (unfold upd; rewrite WildMan_eqb_neq; congruence).
  apply Qeq_bool_false_iff in Hd, Hc. rewrite Hd in N1. rewrite Hc in N2.
  change (Qeq_bool (Money.amount Money.zero) 0) with true in N1, N2.
  cbv iota in N1, N2. lia.
Qed.

Section Loop.
Variable rate : string -> string -> Q.

Lemma unsettled_two (m : ledger) :
  ledger_in_base m -> zero_sum m -> all_settled m = false ->
  (2 <= nonzero_count m)%nat.
Proof.
  intros Hb Hz Hn.
  destruct (extremes rate m Hb) as (dk & ck & _ & _ & Hx).
  destruct (extremes_signs m dk ck Hz Hn Hx) as [Hneg Hpos].
  apply (nonzero_count_two m dk ck); [intros -> | |]; lra.
Qed.

Lemma emits_settled (m m' : ledger) (ps : list Transaction) :
  emits rate m ps m' -> all_settled m' = true.
Proof. induction 1; auto. Qed.

(** The list the loop returns is what it was given followed by the
    payments of its passes, in the order of the passes. *)
Lemma settle_emits (fuel : nat) :
  forall m acc m' out,
    settle rate fuel m acc = Done m' out ->
    exists ps, out = acc ++ ps /\ emits rate m ps m'.
Proof.
  induction fuel as [|fuel IH]; intros m acc m' out; cbn [settle];
    destruct (all_settled m) eqn:Hs.
  - intros [= <- <-]. exists []. rewrite app_nil_r. split; [reflexivity|].
    now constructor.
  - discriminate.
  - intros [= <- <-]. exists []. rewrite app_nil_r. split; [reflexivity|].
    now constructor.
  - destruct (settle_step rate m) as [[m1 p]|e] eqn:Hp; [|discriminate].
    intros H. apply IH in H as (ps & -> & Hr).
    exists (p :: ps). rewrite <- app_assoc. split; [reflexivity|].
    econstructor; eassumption.
Qed.

Lemma settle_more_fuel (fuel : nat) :
  forall m acc m' out k,
    settle rate fuel m acc = Done m' out ->
    settle rate (fuel + k) m acc = Done m' out.
Proof.
  induction fuel as [|fuel IH]; intros m acc m' out k.
  - cbn [settle]. destruct (all_settled m) eqn:Hs; [|discriminate].
    intros H. destruct k; cbn [settle Nat.add]; now rewrite Hs.
  - cbn [settle Nat.add]. destruct (all_settled m); [auto|].
    destruct (settle_step rate m) as [[m1 p]|e]; [|discriminate].
    apply IH.
Qed.

(** With as many passes allowed as there are non-zero balances less one,
    the loop returns. *)
Lemma settle_returns (n : nat) :
  forall m acc,
    ledger_in_base m -> zero_sum m -> (nonzero_count m <= S n)%nat ->
    exists m' ps,
      settle rate n m acc = Done m' (acc ++ ps) /\ (List.length ps <= n)%nat.
Proof.
  induction n as [|n IH]; intros m acc Hb Hz Hc; cbn [settle];
    destruct (all_settled m) eqn:Hs.
  - exists m, []. rewrite app_nil_r. split; [reflexivity|apply Nat.le_refl].
  - pose proof (unsettled_two m Hb Hz Hs). lia.
  - exists m, []. rewrite app_nil_r. split; [reflexivity|apply Nat.le_0_l].
  - destruct (settle_step_balanced rate m Hb Hz Hs)
      as (dk & ck & m2 & p & _ & _ & _ & Hp & Hb2 & Hz2 & Hlt & _).
    rewrite Hp.
    destruct (IH m2 (acc ++ [p]) Hb2 Hz2 ltac:(lia)) as (m' & ps & He & Hl).
    exists m', (p :: ps). rewrite <- app_assoc in He.
    split; [exact He|simpl; lia].
Qed.

Lemma settle_never_raises (fuel : nat) :
  forall m acc e,
    ledger_in_base m -> zero_sum m ->
    settle rate fuel m acc <> Raised e.
Proof.
  induction fuel as [|fuel IH]; intros m acc e Hb Hz; cbn [settle];
    destruct (all_settled m) eqn:Hs; try discriminate.
  destruct (settle_step_balanced rate m Hb Hz Hs)
    as (dk & ck & m2 & p & _ & _ & _ & Hp & Hb2 & Hz2 & _).
  rewrite Hp. now apply IH.
Qed.

Lemma settle_total (fuel : nat) :
  forall m acc m' out,
    ledger_in_base m ->
    settle rate fuel m acc = Done m' out ->
    total m' == total m.
Proof.
  induction fuel as [|fuel IH]; intros m acc m' out Hb; cbn [settle];
    destruct (all_settled m) eqn:Hs.
  - intros [= <- _]. reflexivity.
  - discriminate.
  - intros [= <- _]. reflexivity.
  - destruct (settle_step rate m) as [[m1 p]|e] eqn:Hp; [|discriminate].
    destruct (settle_step_total rate m m1 p Hb Hp) as [Hb1 Ht1].
    intros H. rewrite (IH _ _ _ _ Hb1 H). exact Ht1.
Qed.

End Loop.

(** ** The accumulation loop *)

Lemma Qsum_app (l1 l2 : list Q) : Qsum (l1 ++ l2) == Qsum l1 + Qsum l2.
Proof.
  induction l1 as [|x l1 IH]; simpl; [ring|]. rewrite IH. ring.
Qed.

Section Accumulation.
Variable rate : string -> string -> Q.

Lemma base_amount_scale (p : Q) (v : Money) :
  base_amount rate (Money.scale p v) == p * base_amount rate v.
Proof.
  unfold base_amount, Money.to, Money.scale. simpl.
  destruct (String.eqb (Money.currency v) Money.base); simpl; ring.
Qed.

Lemma amount_add_base (x a : Money) :
  Money.currency x = Money.base ->
  Money.amount (Money.add rate x a) = Money.amount x + base_amount rate a.
Proof. intros H. unfold Money.add, base_amount. now rewrite H. Qed.

Lemma amount_sub_base (x a : Money) :
  Money.currency x = Money.base ->
  Money.amount (Money.sub rate x a) = Money.amount x - base_amount rate a.
Proof. intros H. unfold Money.sub, base_amount. now rewrite H. Qed.

Lemma upd_in_base (m : ledger) (k : WildMan) (v : Money) :
  ledger_in_base m -> Money.currency v = Money.base ->
  ledger_in_base (upd m k v).
Proof.
  intros Hb Hv w. unfold upd. destruct (WildMan_eqb w k); auto.
Qed.

(** The inner loop over [zip(t.recipients, t.split)]: each pair takes its
    share of the amount off the balance of its recipient. *)
Lemma debit_fold (t : Transaction) (l : list (WildMan * Q)) :
  forall m,
    ledger_in_base m ->
    let m' :=
      fold_left
        (fun (mo : ledger) (rp : WildMan * Q) =>
           upd mo (fst rp)
               (Money.sub rate (mo (fst rp)) (Transaction_mul t (snd rp))))
        l m in
    ledger_in_base m' /\
    (forall w,
        Money.amount (m' w) ==
        Money.amount (m w)
        - Qsum (map (fun p => p * base_amount rate (amt t))
                    (map snd (filter (fun rp => WildMan_eqb (fst rp) w) l)))) /\
    total m' == total m - Qsum (map snd l) * base_amount rate (amt t).
Proof.
  induction l as [|[r p] l IH]; intros m Hb; cbn [fold_left fst snd].
  - repeat split; [exact Hb | intros w; simpl; ring | simpl; ring].
  - set (m1 := upd m r (Money.sub rate (m r) (Transaction_mul t p))).
    assert (Hb1 : ledger_in_base m1) by (apply upd_in_base; [exact Hb|apply Hb]).
    destruct (IH m1 Hb1) as (Hb' & Hw & Ht). cbv zeta.
    assert (Hp : Money.amount (Money.sub rate (m r) (Transaction_mul t p))
                 == Money.amount (m r) - p * base_amount rate (amt t)).
    { rewrite amount_sub_base by apply Hb. unfold Transaction_mul.
      rewrite base_amount_scale. reflexivity. }
    repeat split; [exact Hb' | |].
    + intros w. rewrite Hw. cbn [filter fst]. unfold m1, upd.
      destruct (WildMan_eqb_spec r w) as [->|Hne].
      * rewrite WildMan_eqb_refl, Hp. simpl. ring.
      * rewrite (WildMan_eqb_neq w r) by congruence. ring.
    + rewrite Ht. unfold m1. rewrite total_upd, Hp. simpl. ring.
Qed.

Lemma accumulate1_spec (m : ledger) (t : Transaction) :
  ledger_in_base m ->
  ledger_in_base (accumulate1 rate m t) /\
  (forall w,
      Money.amount (accumulate1 rate m t w) ==
      Money.amount (m w)
      + (if WildMan_eqb w (creditor t) then base_amount rate (amt t) else 0)
      - Qsum (map (fun p => p * base_amount rate (amt t)) (shares_of t w))) /\
  total (accumulate1 rate m t)
  == total m + base_amount rate (amt t) * (1 - share_sum t).
Proof.
  intros Hb. unfold accumulate1.
  set (m1 := upd m (creditor t) (Money.add rate (m (creditor t)) (amt t))).
  assert (Hb1 : ledger_in_base m1) by (apply upd_in_base; [exact Hb|apply Hb]).
  destruct (debit_fold t (combine (recipients t) (split t)) m1 Hb1)
    as (Hb' & Hw & Ht).
  repeat split; [exact Hb' | |].
  - intros w. rewrite Hw. unfold shares_of, m1, upd.
    destruct (WildMan_eqb_spec w (creditor t)) as [->|Hne]; [|ring].
    rewrite amount_add_base by apply Hb. ring.
  - rewrite Ht. unfold m1, share_sum.
    rewrite total_upd, amount_add_base by apply Hb. ring.
Qed.

Lemma accumulate_snoc (txs : list Transaction) (t : Transaction) :
  accumulate rate (txs ++ [t]) = accumulate1 rate (accumulate rate txs) t.
Proof. unfold accumulate. now rewrite fold_left_app. Qed.

Lemma fromkeys_in_base : ledger_in_base fromkeys.
Proof. intros w. reflexivity. Qed.

Lemma accumulate_in_base (txs : list Transaction) :
  ledger_in_base (accumulate rate txs).
Proof.
  induction txs as [|t txs IH] using rev_ind; [apply fromkeys_in_base|].
  rewrite accumulate_snoc. now apply accumulate1_spec.
Qed.

(** Transactions whose shares sum to one leave the total at zero. *)
Lemma accumulate_total (txs : list Transaction) :
  Forall (fun t => share_sum t == 1) txs ->
  total (accumulate rate txs) == 0.
Proof.
  induction txs as [|t txs IH] using rev_ind; intros HF.
  - reflexivity.
  - apply Forall_app in HF as [HF Ht]. inversion_clear Ht as [|? ? Hs _].
    rewrite accumulate_snoc.
    destruct (accumulate1_spec (accumulate rate txs) t
                               (accumulate_in_base txs)) as (_ & _ & ->).
    rewrite (IH HF), Hs. ring.
Qed.

Lemma zero_total_zero_sum (m : ledger) : total m == 0 -> zero_sum m.
Proof. intros H. apply zero_sum_iff. rewrite H. split; lra. Qed.

End Accumulation.

(** ** A ledger that does not sum to zero

    The guard of the loop is the only way out of it: once a single balance
    is left above the tolerance, every pass selects it as creditor, a zero
    balance as debtor and moves nothing, so no number of passes suffices. *)

Lemma settle_stalls (rate : string -> string -> Q) (k : WildMan) (fuel : nat) :
  forall m acc,
    ledger_in_base m ->
    1#200 < Money.amount (m k) ->
    (forall w, w <> k -> Money.amount (m w) == 0) ->
    settle rate fuel m acc = OutOfFuel.
Proof.
  induction fuel as [|fuel IH]; intros m acc Hb Hk Hz; cbn [settle];
    (destruct (all_settled m) eqn:Hs;
     [ apply all_settled_iff with (w := k) in Hs;
       apply is_zero_round_iff in Hs; lra | ]); [reflexivity|].
  destruct (settle_step_shape rate m Hb) as (dk & ck & Hx & Hp).
  assert (Hck : ck = k).
  { destruct (WildMan_eqb_spec ck k) as [|Hne]; [assumption|].
    pose proof (Hz ck Hne). pose proof (Hx k). lra. }
  subst ck.
  assert (Hdk : dk <> k).
  { intros ->.
    assert (Ho : exists w, w <> k)
      by (exists (if WildMan_eqb k Nishant then Steve else Nishant);
          destruct k; discriminate).
    destruct Ho as [w Hw]. pose proof (Hz w Hw). pose proof (Hx w). lra. }
  rewrite (WildMan_eqb_neq k dk) in Hp by congruence. cbv zeta in Hp.
  rewrite Hp. destruct (min_abs_base rate m dk k Hb) as [Hac Haa].
  pose proof (Hz dk Hdk) as Hd0.
  assert (Ha0 : Money.amount (Money.min rate (m k) (Money.abs (m dk))) == 0).
  { rewrite Haa.
    assert (Hq : Qabs (Money.amount (m dk)) == 0) by (rewrite Hd0; reflexivity).
    destruct (Money.Qltb (Qabs (Money.amount (m dk))) (Money.amount (m k))) eqn:E;
      [exact Hq|]. apply Qltb_false_iff in E. lra. }
  apply IH.
  - intros w. unfold upd.
    destruct (WildMan_eqb w k); [apply Hb|].
    destruct (WildMan_eqb w dk); apply Hb.
  - unfold upd. rewrite WildMan_eqb_refl.
    rewrite amount_sub by (now rewrite Hac, Hb). lra.
  - intros w Hw. unfold upd. rewrite (WildMan_eqb_neq w k Hw).
    destruct (WildMan_eqb_spec w dk) as [->|Hne]; [|now apply Hz].
    rewrite amount_add by (now rewrite Hac, Hb). lra.
Qed.

(** The ledger of [tx_half] is such a case: Nishant is owed 10, Steve owes 5,
    and after the first pass Nishant's 5 can never be matched. *)
Lemma settle_half_never_returns (fuel : nat) :
  settle par fuel (accumulate par [tx_half]) [] = OutOfFuel.
Proof.
  destruct fuel as [|fuel]; [reflexivity|].
  cbn [settle].
  change (all_settled (accumulate par [tx_half])) with false. cbv iota.
  destruct (settle_step par (accumulate par [tx_half])) as [[m1 p]|e] eqn:E;
    vm_compute in E; [injection E as <- <- | discriminate E].
  apply (settle_stalls par Nishant).
  - intros w. destruct w; reflexivity.
  - reflexivity.
  - intros w Hw. destruct w; try congruence; reflexivity.
Qed.

(** * The claims *)

(** ** Settlement *)

(** C1. For the ledger that the accumulation loop builds from any list of
    transactions: whenever the settlement loop finishes, every balance
    rounds to zero at two decimal places, and the returned list holds the
    payment of each pass in the order of the passes.  Moreover, when every
    transaction's shares sum to one the loop does finish, within
    [participant_count - 1] passes. *)
Theorem settlement_correct (rate : string -> string -> Q)
    (txs : list Transaction) :
  (forall fuel m' ps,
      settle rate fuel (accumulate rate txs) [] = Done m' ps ->
      (forall w, Money.is_zero (Money.round (m' w)) = true) /\
      emits rate (accumulate rate txs) ps m') /\
  (Forall (fun t => share_sum t == 1) txs ->
   exists m' ps,
     settle rate (participant_count - 1) (accumulate rate txs) [] = Done m' ps).
Proof.
  split.
  - intros fuel m' ps H.
    apply settle_emits in H as (ps' & -> & Hr). cbn [app].
    split; [|exact Hr].
    apply all_settled_iff. eapply emits_settled; eassumption.
  - intros HF.
    destruct (settle_returns rate (participant_count - 1)
                (accumulate rate txs) []
                (accumulate_in_base rate txs)
                (zero_total_zero_sum _ (accumulate_total rate txs HF))
                (nonzero_count_le _)) as (m' & ps & H & _).
    now exists m', ps.
Qed.

Lemma settlement_correct_witness :
  exists m' ps,
    settle par 5 (accumulate par [tx_uneven; tx_pair]) [] = Done m' ps /\
    (forall w, Money.is_zero (Money.round (m' w)) = true) /\
    emits par (accumulate par [tx_uneven; tx_pair]) ps m'.
Proof.
  destruct (settlement_correct par [tx_uneven; tx_pair]) as [H1 H2].
  destruct H2 as (m' & ps & E).
  { repeat constructor. }
  exists m', ps. split; [exact E | exact (H1 _ _ _ E)].
Defined.

(** C2. On a ledger that sums to zero within the rounding tolerance, every
    pass of the settlement loop zeroes the balance of the selected debtor or
    creditor, whichever has the smaller magnitude, and hands on a ledger that
    again sums to zero within tolerance with fewer non-zero balances; so the
    loop returns, and with at most [participant_count - 1] payments. *)
Theorem settle_terminates_within_bound (rate : string -> string -> Q)
    (m : ledger) :
  ledger_in_base m -> zero_sum m ->
  (all_settled m = false ->
   exists dk ck m2 p,
     py_min rate (items m) = Ok (dk, m dk) /\
     py_max rate (items m) = Ok (ck, m ck) /\
     settle_step rate m = Ok (m2, p) /\
     (Qabs (Money.amount (m dk)) <= Money.amount (m ck) ->
      Money.amount (m2 dk) == 0) /\
     (Money.amount (m ck) <= Qabs (Money.amount (m dk)) ->
      Money.amount (m2 ck) == 0) /\
     ledger_in_base m2 /\ zero_sum m2 /\
     (nonzero_count m2 < nonzero_count m)%nat) /\
  exists m' ps,
    (forall fuel, (participant_count - 1 <= fuel)%nat ->
                  settle rate fuel m [] = Done m' ps) /\
    (List.length ps <= participant_count - 1)%nat.
Proof.
  intros Hb Hz. split.
  - intros Hn.
    destruct (settle_step_balanced rate m Hb Hz Hn)
      as (dk & ck & m2 & p & Hd & Hc & _ & Hp & Hb2 & Hz2 & Hlt & Hzd & Hzc).
    exists dk, ck, m2, p. repeat split; assumption.
  - destruct (settle_returns rate (participant_count - 1) m [] Hb Hz
                (nonzero_count_le m)) as (m' & ps & H & Hl).
    exists m', ps. split; [|exact Hl].
    intros fuel Hf.
    replace fuel with ((participant_count - 1) + (fuel - (participant_count - 1)))%nat
      by lia.
    now apply settle_more_fuel.
Qed.

Lemma balances_abc_in_base (a b c : WildMan) : ledger_in_base (balances_abc a b c).
Proof.
  intros w. unfold balances_abc.
  destruct (WildMan_eqb w a), (WildMan_eqb w b), (WildMan_eqb w c); reflexivity.
Qed.

Lemma settle_terminates_within_bound_witness :
  exists m' ps,
    (forall fuel, (5 <= fuel)%nat ->
                  settle par fuel (balances_abc Nishant Steve Joe) [] = Done m' ps) /\
    (List.length ps <= 5)%nat.
Proof.
  apply (settle_terminates_within_bound par (balances_abc Nishant Steve Joe)).
  - apply balances_abc_in_base.
  - reflexivity.
Defined.

(** C6. On a ledger that sums to zero within the rounding tolerance the
    selected debtor and creditor always differ: neither the first pass nor
    any later one raises the assertion error. *)
Theorem settle_assertion_holds (rate : string -> string -> Q) (m : ledger) :
  ledger_in_base m -> zero_sum m ->
  (all_settled m = false -> settle_step rate m <> Raise AssertionError) /\
  (forall fuel, settle rate fuel m [] <> Raised AssertionError).
Proof.
  intros Hb Hz. split.
  - intros Hn.
    destruct (settle_step_balanced rate m Hb Hz Hn)
      as (dk & ck & m2 & p & _ & _ & _ & Hp & _).
    rewrite Hp. discriminate.
  - intros fuel. now apply settle_never_raises.
Qed.

Lemma settle_assertion_holds_witness :
  settle_step par (balances_abc Nishant Steve Joe) <> Raise AssertionError /\
  settle par 5 (balances_abc Nishant Steve Joe) [] <> Raised AssertionError.
Proof.
  destruct (settle_assertion_holds par (balances_abc Nishant Steve Joe))
    as [H1 H2].
  - apply balances_abc_in_base.
  - reflexivity.
  - split; [apply H1; reflexivity | apply H2].
Defined.

(** C9. A pass of the settlement loop adds the selected amount to the
    debtor's balance, subtracts it from the creditor's, and touches no other
    balance, so the sum of the balances is the same after the pass; hence it
    is the same when the loop is left as when it was entered. *)
Theorem settle_preserves_total (rate : string -> string -> Q) (m : ledger) :
  ledger_in_base m ->
  (forall m2 p,
      settle_step rate m = Ok (m2, p) ->
      exists dk ck,
        py_min rate (items m) = Ok (dk, m dk) /\
        py_max rate (items m) = Ok (ck, m ck) /\
        dk <> ck /\
        Money.amount (m2 dk)
        == Money.amount (m dk)
           + Money.amount (Money.min rate (m ck) (Money.abs (m dk))) /\
        Money.amount (m2 ck)
        == Money.amount (m ck)
           - Money.amount (Money.min rate (m ck) (Money.abs (m dk))) /\
        (forall w, w <> dk -> w <> ck -> m2 w = m w) /\
        total m2 == total m) /\
  (forall fuel m' ps,
      settle rate fuel m [] = Done m' ps -> total m' == total m).
Proof.
  intros Hb. split.
  - intros m2 p Hp.
    destruct (settle_step_total rate m m2 p Hb Hp) as [_ Ht].
    destruct (extremes rate m Hb) as (dk & ck & Hd & Hc & _).
    unfold settle_step in Hp. rewrite Hd, Hc in Hp. cbn [fst snd] in Hp.
    destruct (WildMan_eqb_spec ck dk) as [|Hne]; [discriminate|].
    injection Hp as <- _.
    destruct (min_abs_base rate m dk ck Hb) as [Hac _].
    exists dk, ck. repeat split; auto.
    + unfold upd. rewrite (WildMan_eqb_neq dk ck) by congruence.
      rewrite WildMan_eqb_refl, amount_add by (now rewrite Hac, Hb). reflexivity.
    + unfold upd. rewrite WildMan_eqb_refl.
      rewrite amount_sub by (now rewrite Hac, Hb). reflexivity.
    + intros w Hwd Hwc. unfold upd.
      now rewrite (WildMan_eqb_neq w ck Hwc), (WildMan_eqb_neq w dk Hwd).
  - intros fuel m' ps H. exact (settle_total rate fuel m [] m' ps Hb H).
Qed.

Lemma settle_preserves_total_witness :
  exists m' ps,
    settle par 2 (balances_abc Nishant Steve Joe) [] = Done m' ps /\
    total m' == total (balances_abc Nishant Steve Joe).
Proof.
  destruct (settle par 2 (balances_abc Nishant Steve Joe) []) as [m' ps|e|] eqn:E.
  - exists m', ps. split; [reflexivity|].
    exact (proj2 (settle_preserves_total par (balances_abc Nishant Steve Joe)
                    (balances_abc_in_base Nishant Steve Joe)) 2%nat m' ps E).
  - vm_compute in E. discriminate.
  - vm_compute in E. discriminate.
Defined.

(** ** Accumulation *)

(** C3. Accumulating a transaction adds to the payer's balance the full
    amount of the transaction and takes from the balance of the recipient of
    each (recipient, share) pair the share times the amount (amounts in the
    base currency); a payer who is also a recipient, with share [s], thus
    gains the amount times [1 - s]. *)
Theorem accumulate_credit_debit (rate : string -> string -> Q)
    (txs : list Transaction) (t : Transaction) (w : WildMan) :
  Money.amount (accumulate rate (txs ++ [t]) w)
  == Money.amount (accumulate rate txs w)
     + (if WildMan_eqb w (creditor t) then base_amount rate (amt t) else 0)
     - Qsum (map (fun p => p * base_amount rate (amt t)) (shares_of t w)) /\
  (Money.currency (amt t) = Money.base ->
   base_amount rate (amt t) = Money.amount (amt t)) /\
  (forall s,
      w = creditor t -> shares_of t w = [s] ->
      Money.amount (accumulate rate (txs ++ [t]) w)
      == Money.amount (accumulate rate txs w)
         + base_amount rate (amt t) * (1 - s)).
Proof.
  rewrite accumulate_snoc.
  destruct (accumulate1_spec rate (accumulate rate txs) t
                             (accumulate_in_base rate txs)) as (_ & Hw & _).
  split; [apply Hw|]. split.
  - intros Hc. unfold base_amount. now rewrite to_same.
  - intros s -> Hs. rewrite Hw, Hs, WildMan_eqb_refl. simpl. ring.
Qed.

Lemma accumulate_credit_debit_witness :
  Money.amount (accumulate par ([] ++ [tx_uneven]) Nishant)
  == Money.amount (accumulate par [] Nishant)
     + base_amount par (amt tx_uneven) * (1 - (1#2)).
Proof.
  apply (accumulate_credit_debit par [] tx_uneven Nishant); reflexivity.
Defined.




(** ** Obligations *)


Lemma mem_false (w : WildMan) (l : list WildMan) : ~ In w l -> mem w l = false.
Proof.
  intros Hn. unfold mem. destruct (existsb (WildMan_eqb w) l) eqn:E; [|reflexivity].
  apply existsb_exists in E as (x & Hx & He).
  destruct (WildMan_eqb_spec w x) as [->|]; [contradiction | discriminate].
Qed.



(** C10. For a participant who is neither payer nor recipient [obligation]
    returns a zero in USD whatever the currency of the transaction; for the
    payer and for a recipient it returns a value in the currency of the
    transaction's amount. *)
Theorem obligation_currency (t : Transaction) (w : WildMan) :
  (creditor t <> w -> ~ In w (recipients t) ->
   obligation t w = Ok (Money.mk 0 "USD")) /\
  (creditor t = w ->
   exists v, obligation t w = Ok v /\
             Money.currency v = Money.currency (amt t)) /\
  (forall i p,
      creditor t <> w ->
      index w (recipients t) = Some i ->
      nth_error (split t) i = Some p ->
      exists v, obligation t w = Ok v /\
                Money.currency v = Money.currency (amt t)).
Proof.
  unfold obligation. repeat split.
  - intros Hc Hn. now rewrite (WildMan_eqb_neq _ _ Hc), (mem_false _ _ Hn).
  - intros ->. rewrite WildMan_eqb_refl. now eexists.
  - intros i p Hc Hi Hp. rewrite (WildMan_eqb_neq _ _ Hc), Hi, Hp.
    destruct (mem w (recipients t)) eqn:Hm.
    + now eexists.
    + exfalso. revert Hm Hi. unfold mem. generalize i.
      induction (recipients t) as [|x l IH]; intros k; simpl; [discriminate|].
      destruct (WildMan_eqb_spec x w) as [->|Hx].
      * now rewrite WildMan_eqb_refl.
      * rewrite (WildMan_eqb_neq w x) by congruence. simpl.
        destruct (index w l) as [n|] eqn:E; [|discriminate].
        intros Hm _. exact (IH n Hm eq_refl).
Qed.

Lemma obligation_currency_witness :
  obligation tx_eur Nishant = Ok (Money.mk 0 "USD") /\
  (exists v, obligation tx_eur Joe = Ok v /\
             Money.currency v = Money.currency (amt tx_eur)) /\
  (exists v, obligation tx_eur Dim = Ok v /\
             Money.currency v = Money.currency (amt tx_eur)).
Proof.
  split; [|split].
  - apply (obligation_currency tx_eur Nishant).
    + discriminate.
    + simpl. intros [H|[]]; discriminate.
  - apply (obligation_currency tx_eur Joe). reflexivity.
  - apply (proj2 (proj2 (obligation_currency tx_eur Dim)) 0%nat 1).
    + discriminate.
    + reflexivity.
    + reflexivity.
Defined.

(** ** Worked scenarios *)

(** C7. With balances A = +30, B = -10, C = -20 and every other participant
    at zero, the settlement loop returns exactly two payments: first 20 with
    payer A and recipients [C], then 10 with payer A and recipients [B], each
    with split [1] and an empty description; all final balances are zero. *)
Theorem settlement_end_to_end (rate : string -> string -> Q) (a b c : WildMan) :
  a <> b -> a <> c -> b <> c ->
  exists m' p1 p2,
    (forall fuel, (2 <= fuel)%nat ->
                  settle rate fuel (balances_abc a b c) [] = Done m' [p1; p2]) /\
    (Money.amount (amt p1) == 20 /\ Money.currency (amt p1) = "USD"%string /\
     creditor p1 = a /\ recipients p1 = [c] /\ split p1 = [1] /\
     desc p1 = EmptyString) /\
    (Money.amount (amt p2) == 10 /\ Money.currency (amt p2) = "USD"%string /\
     creditor p2 = a /\ recipients p2 = [b] /\ split p2 = [1] /\
     desc p2 = EmptyString) /\
    forall w, Money.amount (m' w) == 0.
Proof.
  intros Hab Hac Hbc.
  destruct a, b, c; try congruence;
    match goal with
    | |- context [balances_abc ?x ?y ?z] =>
        run_settle rate 2%nat (balances_abc x y z)
    end;
    (eexists _, _, _; split;
     [ intros fuel Hf; replace fuel with (2 + (fuel - 2))%nat by lia;
       apply settle_more_fuel; eassumption
     | repeat split; try reflexivity; intros w; destruct w; reflexivity ]).
Qed.

Lemma settlement_end_to_end_witness :
  exists m' p1 p2,
    (forall fuel, (2 <= fuel)%nat ->
                  settle par fuel (balances_abc Nishant Steve Joe) []
                  = Done m' [p1; p2]) /\
    (Money.amount (amt p1) == 20 /\ Money.currency (amt p1) = "USD"%string /\
     creditor p1 = Nishant /\ recipients p1 = [Joe] /\ split p1 = [1] /\
     desc p1 = EmptyString) /\
    (Money.amount (amt p2) == 10 /\ Money.currency (amt p2) = "USD"%string /\
     creditor p2 = Nishant /\ recipients p2 = [Steve] /\ split p2 = [1] /\
     desc p2 = EmptyString) /\
    forall w, Money.amount (m' w) == 0.
Proof.
  apply (settlement_end_to_end par Nishant Steve Joe); discriminate.
Defined.




(** * Further properties of the code *)

(** ** Rounding to cents *)

Lemma round_half_even_error (q : Q) :
  -(1#2) <= inject_Z (Money.round_half_even q) - q /\
  inject_Z (Money.round_half_even q) - q <= 1#2.
Proof.
  destruct q as [n d]. unfold Money.round_half_even. cbn [Qnum Qden].
  pose proof (Z.div_mod n (Zpos d) ltac:(lia)) as Hdm.
  pose proof (Z.mod_pos_bound n (Zpos d) ltac:(lia)) as Hr.
  set (f := (n / Zpos d)%Z) in *. set (r := (n mod Zpos d)%Z) in *.
  assert (Hq : forall z : Z,
             inject_Z z - (n # d) == (z * Zpos d - n # d))
    by (intros z; unfold Qeq, Qminus, Qplus, Qopp, inject_Z; simpl; lia).
  assert (Hb : forall z : Z,
             (-(Zpos d) <= 2 * (z * Zpos d - n) <= Zpos d)%Z ->
             -(1#2) <= inject_Z z - (n # d) /\ inject_Z z - (n # d) <= 1#2).
  { intros z Hz. rewrite Hq. unfold Qle. simpl. lia. }
  destruct (Z.compare_spec (2 * r) (Zpos d)); [destruct (Z.even f)| |];
    apply Hb; nia.
Qed.

Lemma round_half_even_int (q : Q) (z : Z) :
  q == inject_Z z -> Money.round_half_even q = z.
Proof.
  destruct q as [n d]. unfold Qeq, inject_Z, Money.round_half_even.
  cbn [Qnum Qden]. intros H. assert (Hn : n = (z * Zpos d)%Z) by lia.
  rewrite Hn, Z.div_mul, Z.mod_mul by lia. simpl. reflexivity.
Qed.

Lemma round_half_even_nonneg (q : Q) :
  0 <= q -> (0 <= Money.round_half_even q)%Z.
Proof.
  destruct q as [n d]. unfold Qle, Money.round_half_even. cbn [Qnum Qden].
  intros H. assert (Hn : (0 <= n)%Z) by lia.
  pose proof (Z.div_pos n (Zpos d) Hn ltac:(lia)).
  destruct (2 * (n mod Zpos d) ?= Zpos d)%Z; [destruct (Z.even _)| |]; lia.
Qed.

Lemma round2_error (q : Q) :
  -(1#200) <= Money.round2 q - q /\ Money.round2 q - q <= 1#200.
Proof.
  unfold Money.round2.
  destruct (round_half_even_error (q * 100)) as [H1 H2].
  assert (He : forall z : Z, (z # 100) == inject_Z z / 100)
    by (intros z; unfold Qeq, Qdiv, Qmult, Qinv, inject_Z; simpl; lia).
  rewrite He. split.
  - apply Qmult_le_r with (z := 100); [reflexivity|]. field_simplify. lra.
  - apply Qmult_le_r with (z := 100); [reflexivity|]. field_simplify. lra.
Qed.

Lemma round2_whole_cents (q : Q) : whole_cents (Money.round2 q).
Proof. eexists. reflexivity. Qed.

Lemma round2_fixes_cents (q : Q) : whole_cents q -> Money.round2 q == q.
Proof.
  intros [z Hz]. unfold Money.round2.
  rewrite (round_half_even_int (q * 100) z); [now symmetry|].
  rewrite Hz. unfold Qeq, Qmult, inject_Z. simpl. lia.
Qed.

Lemma round2_nonneg (q : Q) : 0 <= q -> 0 <= Money.round2 q.
Proof.
  intros H. unfold Money.round2.
  assert (H1 : 0 <= q * 100) by (apply Qmult_le_0_compat; [exact H|discriminate]).
  pose proof (round_half_even_nonneg _ H1). unfold Qle. simpl. lia.
Qed.

(** ** More on the passes of the settlement loop *)

Section Passes.
Variable rate : string -> string -> Q.

(** What a successful pass did, spelled out. *)
Lemma settle_step_inv (m m2 : ledger) (p : Transaction) :
  ledger_in_base m ->
  settle_step rate m = Ok (m2, p) ->
  exists dk ck a,
    dk <> ck /\
    (forall w, Money.amount (m dk) <= Money.amount (m w) /\
               Money.amount (m w) <= Money.amount (m ck)) /\
    Money.currency a = Money.base /\
    Money.amount a
    = (if Money.Qltb (Qabs (Money.amount (m dk))) (Money.amount (m ck))
       then Qabs (Money.amount (m dk)) else Money.amount (m ck)) /\
    p = Transaction_init a ck (Some [dk]) None EmptyString /\
    Money.amount (m2 dk) = Money.amount (m dk) + Money.amount a /\
    Money.amount (m2 ck) = Money.amount (m ck) - Money.amount a /\
    (forall w, w <> dk -> w <> ck -> m2 w = m w) /\
    ledger_in_base m2.
Proof.
  intros Hb Hp.
  destruct (settle_step_total rate m m2 p Hb Hp) as [Hb2 _].
  destruct (extremes rate m Hb) as (dk & ck & Hd & Hc & Hx).
  unfold settle_step in Hp. rewrite Hd, Hc in Hp. cbn [fst snd] in Hp.
  destruct (WildMan_eqb_spec ck dk) as [|Hne]; [discriminate|].
  injection Hp as <- <-.
  destruct (min_abs_base rate m dk ck Hb) as [Hac Haa].
  exists dk, ck, (Money.min rate (m ck) (Money.abs (m dk))).
  repeat split; try assumption; try apply Hx; try congruence.
  - unfold upd. rewrite (WildMan_eqb_neq dk ck) by congruence.
    rewrite WildMan_eqb_refl. apply amount_add. now rewrite Hac, Hb.
  - unfold upd. rewrite WildMan_eqb_refl. apply amount_sub. now rewrite Hac, Hb.
  - intros w Hwd Hwc. unfold upd.
    now rewrite (WildMan_eqb_neq w ck Hwc), (WildMan_eqb_neq w dk Hwd).
Qed.

(** On a ledger that sums to zero within tolerance, a pass moves a positive
    amount, no more than the creditor is owed nor than the debtor owes. *)
Lemma settle_step_signs (m m2 : ledger) (p : Transaction) :
  ledger_in_base m -> zero_sum m -> all_settled m = false ->
  settle_step rate m = Ok (m2, p) ->
  exists dk ck a,
    dk <> ck /\
    Money.amount (m dk) < 0 /\ 0 < Money.amount (m ck) /\
    0 < a /\ a <= Money.amount (m ck) /\ a <= - Money.amount (m dk) /\
    Money.amount (amt p) = Money.round2 a /\
    creditor p = ck /\ recipients p = [dk] /\
    Money.amount (m2 dk) == Money.amount (m dk) + a /\
    Money.amount (m2 ck) == Money.amount (m ck) - a /\
    (forall w, w <> dk -> w <> ck -> m2 w = m w).
Proof.
  intros Hb Hz Hn Hp.
  destruct (settle_step_inv m m2 p Hb Hp)
    as (dk & ck & a & Hne & Hx & Hac & Haa & -> & Hd2 & Hc2 & Ho & _).
  destruct (extremes_signs m dk ck Hz Hn Hx) as [Hneg Hpos].
  assert (Habs : Qabs (Money.amount (m dk)) == - Money.amount (m dk))
    by (apply Qabs_neg; lra).
  exists dk, ck, (Money.amount a).
  assert (Hr : 0 < Money.amount a /\ Money.amount a <= Money.amount (m ck) /\
               Money.amount a <= - Money.amount (m dk)).
  { rewrite Haa.
    destruct (Money.Qltb (Qabs (Money.amount (m dk))) (Money.amount (m ck))) eqn:E.
    - apply Qltb_iff in E. rewrite Habs in *. repeat split; lra.
    - apply Qltb_false_iff in E. rewrite Habs in E. repeat split; lra. }
  destruct Hr as (H1 & H2 & H3).
  repeat split; try assumption; try reflexivity.
  - rewrite Hd2. reflexivity.
  - rewrite Hc2. reflexivity.
Qed.

Lemma settle_step_toward_zero (m m2 : ledger) (p : Transaction) :
  ledger_in_base m -> zero_sum m -> all_settled m = false ->
  settle_step rate m = Ok (m2, p) ->
  forall w,
    (0 <= Money.amount (m2 w) /\ Money.amount (m2 w) <= Money.amount (m w)) \/
    (Money.amount (m w) <= Money.amount (m2 w) /\ Money.amount (m2 w) <= 0).
Proof.
  intros Hb Hz Hn Hp w.
  destruct (settle_step_signs m m2 p Hb Hz Hn Hp)
    as (dk & ck & a & Hne & Hd & Hc & Ha & Hac & Had & _ & _ & _ & Hd2 & Hc2 & Ho).
  destruct (WildMan_eqb_spec w dk) as [->|Hwd]; [right; lra|].
  destruct (WildMan_eqb_spec w ck) as [->|Hwc]; [left; lra|].
  rewrite (Ho w Hwd Hwc).
  destruct (Qlt_le_dec (Money.amount (m w)) 0); [right | left]; lra.
Qed.

End Passes.

(** ** What the returned payments do *)

Lemma received_cons (p : Transaction) (ps : list Transaction) (w : WildMan) :
  received (p :: ps) w
  == (if WildMan_eqb (creditor p) w then Money.amount (amt p) else 0)
     + received ps w.
Proof.
  unfold received. cbn [filter].
  destruct (WildMan_eqb (creditor p) w); simpl; ring.
Qed.

Lemma paid_cons (p : Transaction) (ps : list Transaction) (w : WildMan) :
  paid (p :: ps) w
  == (if mem w (recipients p) then Money.amount (amt p) else 0) + paid ps w.
Proof.
  unfold paid. cbn [filter].
  destruct (mem w (recipients p)); simpl; ring.
Qed.

Lemma mem_single (w dk : WildMan) : mem w [dk] = WildMan_eqb w dk.
Proof. unfold mem. simpl. apply orb_false_r. Qed.

Section Payments.
Variable rate : string -> string -> Q.

Lemma emits_invariant (m m' : ledger) (ps : list Transaction) :
  emits rate m ps m' ->
  ledger_in_base m -> zero_sum m ->
  ledger_in_base m' /\ zero_sum m'.
Proof.
  induction 1 as [m Hs|m m1 p ps m' Hn Hp _ IH]; intros Hb Hz; [now split|].
  destruct (settle_step_total rate m m1 p Hb Hp) as [Hb1 Ht].
  apply IH; [exact Hb1|].
  apply zero_sum_iff. apply zero_sum_iff in Hz. now rewrite Ht.
Qed.

Lemma step_zero_sum (m m1 : ledger) (p : Transaction) :
  ledger_in_base m -> zero_sum m -> settle_step rate m = Ok (m1, p) ->
  ledger_in_base m1 /\ zero_sum m1.
Proof.
  intros Hb Hz Hp.
  destruct (settle_step_total rate m m1 p Hb Hp) as [Hb1 Ht].
  split; [exact Hb1|].
  apply zero_sum_iff. apply zero_sum_iff in Hz. now rewrite Ht.
Qed.

Lemma emits_toward_zero (m m' : ledger) (ps : list Transaction) :
  emits rate m ps m' ->
  ledger_in_base m -> zero_sum m ->
  forall w,
    (0 <= Money.amount (m' w) /\ Money.amount (m' w) <= Money.amount (m w)) \/
    (Money.amount (m w) <= Money.amount (m' w) /\ Money.amount (m' w) <= 0).
Proof.
  induction 1 as [m Hs|m m1 p ps m' Hn Hp _ IH]; intros Hb Hz w.
  - destruct (Qlt_le_dec (Money.amount (m w)) 0); [right | left]; lra.
  - destruct (step_zero_sum m m1 p Hb Hz Hp) as [Hb1 Hz1].
    pose proof (settle_step_toward_zero rate m m1 p Hb Hz Hn Hp w).
    pose proof (IH Hb1 Hz1 w). lra.
Qed.

Lemma emits_roles (m m' : ledger) (ps : list Transaction) :
  emits rate m ps m' ->
  ledger_in_base m -> zero_sum m ->
  forall p, In p ps ->
    exists dk,
      recipients p = [dk] /\
      0 < Money.amount (m (creditor p)) /\ Money.amount (m dk) < 0 /\
      0 <= Money.amount (amt p) /\
      split p = [1] /\ desc p = EmptyString.
Proof.
  induction 1 as [m Hs|m m1 p0 ps m' Hn Hp _ IH]; intros Hb Hz p Hin;
    [contradiction|].
  destruct Hin as [<-|Hin].
  - destruct (settle_step_signs rate m m1 p0 Hb Hz Hn Hp)
      as (dk & ck & a & Hne & Hd & Hc & Ha & _ & _ & Hamt & Hcr & Hre & _).
    destruct (settle_step_inv rate m m1 p0 Hb Hp)
      as (dk' & ck' & a' & _ & _ & _ & _ & Hp0 & _).
    exists dk. rewrite Hcr, Hre, Hamt. repeat split; try assumption.
    + apply round2_nonneg. lra.
    + now rewrite Hp0.
    + now rewrite Hp0.
  - destruct (step_zero_sum m m1 p0 Hb Hz Hp) as [Hb1 Hz1].
    destruct (IH Hb1 Hz1 p Hin) as (dk & Hre & Hc & Hd & Hrest).
    exists dk. split; [exact Hre|].
    pose proof (settle_step_toward_zero rate m m1 p0 Hb Hz Hn Hp (creditor p)).
    pose proof (settle_step_toward_zero rate m m1 p0 Hb Hz Hn Hp dk).
    split; [lra|]. split; [lra|]. exact Hrest.
Qed.

(** Each balance is what the payments bring in less what they take out, up
    to half a cent for the balance left and for each payment. *)
Lemma emits_accounts (m m' : ledger) (ps : list Transaction) :
  emits rate m ps m' ->
  ledger_in_base m ->
  forall w,
    - ((1 + inject_Z (Z.of_nat (List.length ps))) * (1#200))
    <= Money.amount (m w) - (received ps w - paid ps w) /\
    Money.amount (m w) - (received ps w - paid ps w)
    <= (1 + inject_Z (Z.of_nat (List.length ps))) * (1#200).
Proof.
  induction 1 as [m Hs|m m1 p ps m' Hn Hp _ IH]; intros Hb w.
  - apply all_settled_iff with (w := w) in Hs. apply is_zero_round_iff in Hs.
    unfold received, paid. simpl. unfold inject_Z. lra.
  - destruct (settle_step_inv rate m m1 p Hb Hp)
      as (dk & ck & a & Hne & _ & _ & _ & -> & Hd2 & Hc2 & Ho & Hb1).
    specialize (IH Hb1 w).
    rewrite received_cons, paid_cons. cbn [creditor recipients amt Transaction_init].
    rewrite mem_single. cbn [Money.round Money.amount].
    pose proof (round2_error (Money.amount a)) as Hr.
    assert (Hl : inject_Z (Z.of_nat (List.length (Transaction_init a ck (Some [dk]) None EmptyString :: ps)))
                 == 1 + inject_Z (Z.of_nat (List.length ps))).
    { cbn [List.length]. rewrite Nat2Z.inj_succ. unfold Z.succ.
      rewrite inject_Z_plus. ring. }
    rewrite Hl.
    destruct (WildMan_eqb_spec w dk) as [->|Hwd].
    + rewrite (WildMan_eqb_neq ck dk) by congruence. rewrite Hd2 in IH. lra.
    + destruct (WildMan_eqb_spec ck w) as [<-|Hwc].
      * rewrite Hc2 in IH. lra.
      * rewrite (Ho w Hwd) in IH by congruence. lra.
Qed.

(** When every balance is a whole number of cents the payments account for
    each balance exactly, and every balance is left at exactly zero. *)
Lemma emits_exact (m m' : ledger) (ps : list Transaction) :
  emits rate m ps m' ->
  ledger_in_base m ->
  (forall w, whole_cents (Money.amount (m w))) ->
  (forall w, Money.amount (m' w) == 0) /\
  (forall w, Money.amount (m w) == received ps w - paid ps w).
Proof.
  induction 1 as [m Hs|m m1 p ps m' Hn Hp _ IH]; intros Hb Hc.
  - assert (H0 : forall w, Money.amount (m w) == 0).
    { intros w. apply all_settled_iff with (w := w) in Hs.
      apply is_zero_round_iff in Hs. destruct (Hc w) as [z Hz].
      rewrite Hz in *. unfold Qle, Qeq in *. simpl in *. lia. }
    split; [exact H0|]. intros w. rewrite H0. unfold received, paid. simpl. ring.
  - destruct (settle_step_inv rate m m1 p Hb Hp)
      as (dk & ck & a & Hne & _ & _ & Haa & -> & Hd2 & Hc2 & Ho & Hb1).
    assert (Hca : whole_cents (Money.amount a)).
    { rewrite Haa.
      destruct (Money.Qltb (Qabs (Money.amount (m dk))) (Money.amount (m ck)));
        [|apply Hc].
      destruct (Hc dk) as [z Hz]. exists (Z.abs z). rewrite Hz. reflexivity. }
    assert (Hc1 : forall w, whole_cents (Money.amount (m1 w))).
    { intros w. destruct Hca as [za Hza].
      destruct (WildMan_eqb_spec w dk) as [->|Hwd].
      - destruct (Hc dk) as [z Hz]. exists (z + za)%Z. rewrite Hd2, Hz, Hza.
        unfold Qeq, Qplus. simpl. lia.
      - destruct (WildMan_eqb_spec w ck) as [->|Hwc].
        + destruct (Hc ck) as [z Hz]. exists (z - za)%Z. rewrite Hc2, Hz, Hza.
          unfold Qeq, Qminus, Qplus, Qopp. simpl. lia.
        + rewrite (Ho w Hwd Hwc). apply Hc. }
    destruct (IH Hb1 Hc1) as [Hz' Hacc]. split; [exact Hz'|].
    intros w. specialize (Hacc w).
    rewrite received_cons, paid_cons. cbn [creditor recipients amt Transaction_init].
    rewrite mem_single. cbn [Money.round Money.amount].
    pose proof (round2_fixes_cents _ Hca) as Hr.
    destruct (WildMan_eqb_spec w dk) as [->|Hwd].
    + rewrite (WildMan_eqb_neq ck dk) by congruence. rewrite Hd2 in Hacc. lra.
    + destruct (WildMan_eqb_spec ck w) as [<-|Hwc].
      * rewrite Hc2 in Hacc. lra.
      * rewrite (Ho w Hwd) in Hacc by congruence. lra.
Qed.

End Payments.

(** ** Selection order and the assertion *)

Section Selection.
Variable rate : string -> string -> Q.

(** [min] keeps the earliest of the least elements: everything listed
    before its result is strictly greater. *)
Lemma min_from_first (l : list (WildMan * Money)) :
  forall best,
    (forall x, In x (best :: l) -> Money.currency (snd x) = Money.base) ->
    exists l1 l2,
      best :: l = l1 ++ min_from rate best l :: l2 /\
      forall x, In x l1 ->
                Money.amount (snd (min_from rate best l)) < Money.amount (snd x).
Proof.
  induction l as [|y l IH]; intros best Hc; cbn [min_from].
  - exists [], []. split; [reflexivity|]. intros x [].
  - assert (Hlt : Money.ltb rate (snd y) (snd best)
                  = Money.Qltb (Money.amount (snd y)) (Money.amount (snd best))).
    { unfold Money.ltb. rewrite to_same; [reflexivity|].
      rewrite (Hc best), (Hc y); simpl; auto. }
    rewrite Hlt.
    destruct (Money.Qltb (Money.amount (snd y)) (Money.amount (snd best))) eqn:E.
    + apply Qltb_iff in E.
      assert (Hcy : forall x, In x (y :: l) -> Money.currency (snd x) = Money.base)
        by (intros x Hx; apply Hc; now right).
      destruct (IH y Hcy) as (l1 & l2 & Heq & Hl1).
      destruct (min_from_spec rate l y Hcy) as [_ Hm].
      exists (best :: l1), l2. split; [simpl; now rewrite Heq|].
      intros x [<-|Hx]; [|now apply Hl1].
      pose proof (Hm y (or_introl eq_refl)). lra.
    + apply Qltb_false_iff in E.
      assert (Hcb : forall x, In x (best :: l) -> Money.currency (snd x) = Money.base)
        by (intros x [<-|Hx]; apply Hc; [now left | now right; right]).
      destruct (IH best Hcb) as (l1 & l2 & Heq & Hl1).
      destruct l1 as [|b l1].
      * injection Heq as Hb Hl. exists [], (y :: l). split; [|intros x []].
        simpl. now rewrite <- Hb.
      * injection Heq as <- Hl. exists (best :: y :: l1), l2.
        split; [simpl; now rewrite <- Hl|].
        intros x [<-|[<-|Hx]].
        -- apply Hl1. now left.
        -- pose proof (Hl1 best (or_introl eq_refl)). lra.
        -- apply Hl1. now right.
Qed.

Lemma max_from_first (l : list (WildMan * Money)) :
  forall best,
    (forall x, In x (best :: l) -> Money.currency (snd x) = Money.base) ->
    exists l1 l2,
      best :: l = l1 ++ max_from rate best l :: l2 /\
      forall x, In x l1 ->
                Money.amount (snd x) < Money.amount (snd (max_from rate best l)).
Proof.
  induction l as [|y l IH]; intros best Hc; cbn [max_from].
  - exists [], []. split; [reflexivity|]. intros x [].
  - assert (Hgt : Money.gtb rate (snd y) (snd best)
                  = Money.Qltb (Money.amount (snd best)) (Money.amount (snd y))).
    { unfold Money.gtb. rewrite to_same; [reflexivity|].
      rewrite (Hc best), (Hc y); simpl; auto. }
    rewrite Hgt.
    destruct (Money.Qltb (Money.amount (snd best)) (Money.amount (snd y))) eqn:E.
    + apply Qltb_iff in E.
      assert (Hcy : forall x, In x (y :: l) -> Money.currency (snd x) = Money.base)
        by (intros x Hx; apply Hc; now right).
      destruct (IH y Hcy) as (l1 & l2 & Heq & Hl1).
      destruct (max_from_spec rate l y Hcy) as [_ Hm].
      exists (best :: l1), l2. split; [simpl; now rewrite Heq|].
      intros x [<-|Hx]; [|now apply Hl1].
      pose proof (Hm y (or_introl eq_refl)). lra.
    + apply Qltb_false_iff in E.
      assert (Hcb : forall x, In x (best :: l) -> Money.currency (snd x) = Money.base)
        by (intros x [<-|Hx]; apply Hc; [now left | now right; right]).
      destruct (IH best Hcb) as (l1 & l2 & Heq & Hl1).
      destruct l1 as [|b l1].
      * injection Heq as Hb Hl. exists [], (y :: l). split; [|intros x []].
        simpl. now rewrite <- Hb.
      * injection Heq as <- Hl. exists (best :: y :: l1), l2.
        split; [simpl; now rewrite <- Hl|].
        intros x [<-|[<-|Hx]].
        -- apply Hl1. now left.
        -- pose proof (Hl1 best (or_introl eq_refl)). lra.
        -- apply Hl1. now right.
Qed.

Lemma items_split (m : ledger) (x : WildMan * Money)
    (l1 l2 : list (WildMan * Money)) :
  items m = l1 ++ x :: l2 ->
  exists k1 k2,
    registry = k1 ++ fst x :: k2 /\
    l1 = map (fun w => (w, m w)) k1.
Proof.
  unfold items. intros H. apply map_eq_app in H as (k1 & k' & Hr & H1 & H2).
  apply map_eq_cons in H2 as (w & k2 & -> & <- & _).
  exists k1, k2. split; [exact Hr | now symmetry].
Qed.

End Selection.

Section Further.
Variable rate : string -> string -> Q.

Lemma extremes_first (m : ledger) :
  ledger_in_base m ->
  exists dk ck l1 l2 k1 k2,
    py_min rate (items m) = Ok (dk, m dk) /\
    py_max rate (items m) = Ok (ck, m ck) /\
    registry = l1 ++ dk :: l2 /\
    (forall w, In w l1 -> Money.amount (m dk) < Money.amount (m w)) /\
    (forall w, Money.amount (m dk) <= Money.amount (m w)) /\
    registry = k1 ++ ck :: k2 /\
    (forall w, In w k1 -> Money.amount (m w) < Money.amount (m ck)) /\
    (forall w, Money.amount (m w) <= Money.amount (m ck)).
Proof.
  intros Hb.
  assert (Hc : forall x, In x (items m) -> Money.currency (snd x) = Money.base).
  { intros x Hx. rewrite (in_items m x Hx). apply Hb. }
  assert (Hi : items m = (Nishant, m Nishant) :: tl (items m)) by reflexivity.
  rewrite Hi in Hc.
  destruct (min_from_spec rate (tl (items m)) _ Hc) as [Hdi Hdm].
  destruct (max_from_spec rate (tl (items m)) _ Hc) as [Hci Hcm].
  destruct (min_from_first rate (tl (items m)) _ Hc) as (a1 & a2 & Ha & Ha1).
  destruct (max_from_first rate (tl (items m)) _ Hc) as (b1 & b2 & Hb' & Hb1).
  rewrite <- Hi in Hdi, Hdm, Hci, Hcm, Ha, Hb'.
  set (d := min_from rate (Nishant, m Nishant) (tl (items m))) in *.
  set (c := max_from rate (Nishant, m Nishant) (tl (items m))) in *.
  destruct (items_split m d a1 a2 Ha) as (l1 & l2 & Hr1 & Hl1).
  destruct (items_split m c b1 b2 Hb') as (k1 & k2 & Hr2 & Hk1).
  pose proof (in_items m d Hdi) as Hd. pose proof (in_items m c Hci) as Hc'.
  exists (fst d), (fst c), l1, l2, k1, k2.
  rewrite <- Hd, <- Hc'. repeat split; try assumption.
  - intros w Hw. rewrite Hd. cbn [snd].
    assert (Hin : In (w, m w) a1)
      by (rewrite Hl1; apply (in_map (fun w => (w, m w))); exact Hw).
    pose proof (Ha1 _ Hin) as H. rewrite Hd in H. exact H.
  - intros w. pose proof (Hdm _ (items_all m w)) as H. rewrite Hd in H. exact H.
  - intros w Hw. rewrite Hc'. cbn [snd].
    assert (Hin : In (w, m w) b1)
      by (rewrite Hk1; apply (in_map (fun w => (w, m w))); exact Hw).
    pose proof (Hb1 _ Hin) as H. rewrite Hc' in H. exact H.
  - intros w. pose proof (Hcm _ (items_all m w)) as H. rewrite Hc' in H. exact H.
Qed.

Lemma emits_in_base (m m' : ledger) (ps : list Transaction) :
  emits rate m ps m' -> ledger_in_base m -> ledger_in_base m'.
Proof.
  induction 1 as [m Hs|m m1 p ps m' Hn Hp _ IH]; intros Hb; [exact Hb|].
  apply IH. now destruct (settle_step_total rate m m1 p Hb Hp).
Qed.

Lemma settle_stalls_neg (k : WildMan) (fuel : nat) :
  forall m acc,
    ledger_in_base m ->
    Money.amount (m k) < -(1#200) ->
    (forall w, w <> k -> Money.amount (m w) == 0) ->
    settle rate fuel m acc = OutOfFuel.
Proof.
  induction fuel as [|fuel IH]; intros m acc Hb Hk Hz; cbn [settle];
    (destruct (all_settled m) eqn:Hs;
     [ apply all_settled_iff with (w := k) in Hs;
       apply is_zero_round_iff in Hs; lra | ]); [reflexivity|].
  destruct (settle_step_shape rate m Hb) as (dk & ck & Hx & Hp).
  assert (Hdk : dk = k).
  { destruct (WildMan_eqb_spec dk k) as [|Hne]; [assumption|].
    pose proof (Hz dk Hne). pose proof (Hx k). lra. }
  subst dk.
  assert (Hck : ck <> k).
  { intros ->.
    assert (Ho : exists w, w <> k)
      by (exists (if WildMan_eqb k Nishant then Steve else Nishant);
          destruct k; discriminate).
    destruct Ho as [w Hw]. pose proof (Hz w Hw). pose proof (Hx w). lra. }
  rewrite (WildMan_eqb_neq ck k Hck) in Hp. cbv zeta in Hp.
  rewrite Hp. destruct (min_abs_base rate m k ck Hb) as [Hac Haa].
  pose proof (Hz ck Hck) as Hc0.
  assert (Ha0 : Money.amount (Money.min rate (m ck) (Money.abs (m k))) == 0).
  { rewrite Haa.
    assert (Hq : Qabs (Money.amount (m k)) == - Money.amount (m k))
      by (apply Qabs_neg; lra).
    destruct (Money.Qltb (Qabs (Money.amount (m k))) (Money.amount (m ck))) eqn:E;
      [|exact Hc0]. apply Qltb_iff in E. lra. }
  apply IH.
  - intros w. unfold upd.
    destruct (WildMan_eqb w ck); [apply Hb|].
    destruct (WildMan_eqb w k); apply Hb.
  - unfold upd. rewrite (WildMan_eqb_neq k ck) by congruence.
    rewrite WildMan_eqb_refl.
    rewrite amount_add by (now rewrite Hac, Hb). lra.
  - intros w Hw. unfold upd. rewrite (WildMan_eqb_neq w k Hw).
    destruct (WildMan_eqb_spec w ck) as [->|Hne]; [|now apply Hz].
    rewrite amount_sub by (now rewrite Hac, Hb). lra.
Qed.

End Further.

Lemma neb_zero_usd (v : Money) :
  Money.currency v = Money.base ->
  Money.neb (Money.round v) (Money.mk 0 "USD")
  = negb (Money.is_zero (Money.round v)).
Proof.
  intros H. unfold Money.neb, Money.eqb, Money.is_zero. cbn [Money.round
    Money.amount Money.currency]. rewrite H. cbn. now rewrite andb_true_r.
Qed.

Lemma in_outstanding (m : ledger) (w : WildMan) (b : Money) :
  ledger_in_base m ->
  In (w, b) (outstanding m) <->
  b = Money.round (m w) /\ Money.is_zero b = false.
Proof.
  intros Hb. unfold outstanding. rewrite filter_In, in_map_iff. cbn [snd].
  split.
  - intros [(x & Hx & Hin) Hf]. rewrite (in_items m x Hin) in Hx.
    cbn [fst snd] in Hx. injection Hx as <- <-.
    split; [reflexivity|].
    rewrite neb_zero_usd in Hf by apply Hb. now apply negb_true_iff.
  - intros [-> Hz]. split.
    + exists (w, m w). split; [reflexivity | apply items_all].
    + rewrite neb_zero_usd by apply Hb. now rewrite Hz.
Qed.

(** * Further theorems *)

(** ** The settlement loop *)

Lemma balances_abc_cents (a b c : WildMan) (w : WildMan) :
  whole_cents (Money.amount (balances_abc a b c w)).
Proof.
  unfold balances_abc.
  destruct (WildMan_eqb w a); [exists 3000%Z; reflexivity|].
  destruct (WildMan_eqb w b); [exists (-1000)%Z; reflexivity|].
  destruct (WildMan_eqb w c); [exists (-2000)%Z; reflexivity|].
  exists 0%Z; reflexivity.
Qed.

(** X1. On a ledger that sums to zero within tolerance, settlement moves
    every balance toward zero and never across it: a participant who was
    owed money ends owed no more than before and owing nothing, and the
    other way round. *)
Theorem settle_moves_toward_zero (rate : string -> string -> Q) (fuel : nat)
    (m m' : ledger) (ps : list Transaction) :
  ledger_in_base m -> zero_sum m ->
  settle rate fuel m [] = Done m' ps ->
  forall w,
    (0 <= Money.amount (m' w) /\ Money.amount (m' w) <= Money.amount (m w)) \/
    (Money.amount (m w) <= Money.amount (m' w) /\ Money.amount (m' w) <= 0).
Proof.
  intros Hb Hz H w. apply settle_emits in H as (ps' & _ & Hr).
  exact (emits_toward_zero rate m m' ps' Hr Hb Hz w).
Qed.

Lemma settle_moves_toward_zero_witness :
  exists m' ps,
    settle par 2 (balances_abc Nishant Steve Joe) [] = Done m' ps /\
    forall w,
      (0 <= Money.amount (m' w) /\
       Money.amount (m' w) <= Money.amount (balances_abc Nishant Steve Joe w)) \/
      (Money.amount (balances_abc Nishant Steve Joe w) <= Money.amount (m' w) /\
       Money.amount (m' w) <= 0).
Proof.
  destruct (settle par 2 (balances_abc Nishant Steve Joe) []) as [m' ps|e|] eqn:E.
  - exists m', ps. split; [reflexivity|].
    apply (settle_moves_toward_zero par 2 _ m' ps
             (balances_abc_in_base Nishant Steve Joe) eq_refl E).
  - vm_compute in E. discriminate.
  - vm_compute in E. discriminate.
Defined.

(** X2. On a ledger that sums to zero within tolerance, every returned
    payment has a single recipient, who owed money at the start, and a
    creditor who was owed money at the start; its amount is not negative, its
    split is [1] and its description empty.  So nobody is both a creditor
    and a recipient among the payments. *)
Theorem settle_payment_roles (rate : string -> string -> Q) (fuel : nat)
    (m m' : ledger) (ps : list Transaction) :
  ledger_in_base m -> zero_sum m ->
  settle rate fuel m [] = Done m' ps ->
  (forall p, In p ps ->
     exists dk,
       recipients p = [dk] /\
       0 < Money.amount (m (creditor p)) /\ Money.amount (m dk) < 0 /\
       0 <= Money.amount (amt p) /\
       split p = [1] /\ desc p = EmptyString) /\
  (forall p q, In p ps -> In q ps -> ~ In (creditor p) (recipients q)).
Proof.
  intros Hb Hz H. apply settle_emits in H as (ps' & -> & Hr). cbn [app].
  pose proof (emits_roles rate m m' ps' Hr Hb Hz) as Hroles.
  split; [exact Hroles|].
  intros p q Hp Hq Hin.
  destruct (Hroles p Hp) as (_ & _ & Hc & _).
  destruct (Hroles q Hq) as (dk & Hre & _ & Hd & _).
  rewrite Hre in Hin. destruct Hin as [Heq|[]]. rewrite Heq in Hd. lra.
Qed.

Lemma settle_payment_roles_witness :
  exists m' ps,
    settle par 2 (balances_abc Nishant Steve Joe) [] = Done m' ps /\
    forall p q, In p ps -> In q ps -> ~ In (creditor p) (recipients q).
Proof.
  destruct (settle par 2 (balances_abc Nishant Steve Joe) []) as [m' ps|e|] eqn:E.
  - exists m', ps. split; [reflexivity|].
    apply (settle_payment_roles par 2 _ m' ps
             (balances_abc_in_base Nishant Steve Joe) eq_refl E).
  - vm_compute in E. discriminate.
  - vm_compute in E. discriminate.
Defined.

(** X3. When the loop returns, each starting balance equals what the
    returned payments bring that participant less what they take, up to half
    a cent for the balance left over and half a cent for each payment (the
    payments carry amounts rounded to cents, the ledger moves unrounded
    ones). *)
Theorem settle_payments_account (rate : string -> string -> Q) (fuel : nat)
    (m m' : ledger) (ps : list Transaction) :
  ledger_in_base m ->
  settle rate fuel m [] = Done m' ps ->
  forall w,
    - ((1 + inject_Z (Z.of_nat (List.length ps))) * (1#200))
    <= Money.amount (m w) - (received ps w - paid ps w) /\
    Money.amount (m w) - (received ps w - paid ps w)
    <= (1 + inject_Z (Z.of_nat (List.length ps))) * (1#200).
Proof.
  intros Hb H w. apply settle_emits in H as (ps' & -> & Hr). cbn [app].
  exact (emits_accounts rate m m' ps' Hr Hb w).
Qed.

Lemma settle_payments_account_witness :
  exists m' ps,
    settle par 5 (accumulate par [tx_even Nishant EmptyString]) [] = Done m' ps /\
    - ((1 + inject_Z (Z.of_nat (List.length ps))) * (1#200))
    <= Money.amount (accumulate par [tx_even Nishant EmptyString] Steve)
       - (received ps Steve - paid ps Steve).
Proof.
  destruct (settle par 5 (accumulate par [tx_even Nishant EmptyString]) [])
    as [m' ps|e|] eqn:E.
  - exists m', ps. split; [reflexivity|].
    apply (settle_payments_account par 5 _ m' ps
             (accumulate_in_base par [tx_even Nishant EmptyString]) E Steve).
  - vm_compute in E. discriminate.
  - vm_compute in E. discriminate.
Defined.

(** X4. When every starting balance is a whole number of cents and the loop
    returns, every balance is left at exactly zero and each starting balance
    is exactly what the returned payments bring that participant less what
    they take. *)
Theorem settle_exact_on_cents (rate : string -> string -> Q) (fuel : nat)
    (m m' : ledger) (ps : list Transaction) :
  ledger_in_base m ->
  (forall w, whole_cents (Money.amount (m w))) ->
  settle rate fuel m [] = Done m' ps ->
  (forall w, Money.amount (m' w) == 0) /\
  (forall w, Money.amount (m w) == received ps w - paid ps w).
Proof.
  intros Hb Hc H. apply settle_emits in H as (ps' & -> & Hr). cbn [app].
  exact (emits_exact rate m m' ps' Hr Hb Hc).
Qed.

Lemma settle_exact_on_cents_witness :
  exists m' ps,
    settle par 2 (balances_abc Nishant Steve Joe) [] = Done m' ps /\
    (forall w, Money.amount (m' w) == 0) /\
    (forall w, Money.amount (balances_abc Nishant Steve Joe w)
               == received ps w - paid ps w).
Proof.
  destruct (settle par 2 (balances_abc Nishant Steve Joe) []) as [m' ps|e|] eqn:E.
  - exists m', ps. split; [reflexivity|].
    apply (settle_exact_on_cents par 2 _ m' ps
             (balances_abc_in_base Nishant Steve Joe)
             (balances_abc_cents Nishant Steve Joe) E).
  - vm_compute in E. discriminate.
  - vm_compute in E. discriminate.
Defined.

(** X5. On a ledger that sums to zero within tolerance the loop returns
    fewer payments than there are participants with a non-zero balance. *)
Theorem settle_payment_count (rate : string -> string -> Q) (fuel : nat)
    (m m' : ledger) (ps : list Transaction) :
  ledger_in_base m -> zero_sum m ->
  settle rate fuel m [] = Done m' ps ->
  (List.length ps <= nonzero_count m - 1)%nat.
Proof.
  intros Hb Hz H.
  destruct (settle_returns rate (nonzero_count m - 1) m [] Hb Hz ltac:(lia))
    as (m2 & ps2 & H2 & Hl).
  apply settle_more_fuel with (k := (nonzero_count m - 1)%nat) in H.
  apply settle_more_fuel with (k := fuel) in H2.
  rewrite Nat.add_comm, H in H2. injection H2 as _ ->. exact Hl.
Qed.

Lemma settle_payment_count_witness :
  exists m' ps,
    settle par 5 (balances_abc Nishant Steve Joe) [] = Done m' ps /\
    (List.length ps <= nonzero_count (balances_abc Nishant Steve Joe) - 1)%nat.
Proof.
  destruct (settle par 5 (balances_abc Nishant Steve Joe) []) as [m' ps|e|] eqn:E.
  - exists m', ps. split; [reflexivity|].
    apply (settle_payment_count par 5 _ m' ps
             (balances_abc_in_base Nishant Steve Joe) eq_refl E).
  - vm_compute in E. discriminate.
  - vm_compute in E. discriminate.
Defined.

(** X6. The biggest debtor is the first participant in registry order
    among those with the least balance, and the biggest creditor the first
    among those with the greatest: everyone listed before the one selected
    is strictly above the least, respectively strictly below the greatest. *)
Theorem selection_first_in_registry (rate : string -> string -> Q)
    (m : ledger) :
  ledger_in_base m ->
  exists dk ck l1 l2 k1 k2,
    py_min rate (items m) = Ok (dk, m dk) /\
    py_max rate (items m) = Ok (ck, m ck) /\
    registry = l1 ++ dk :: l2 /\
    (forall w, In w l1 -> Money.amount (m dk) < Money.amount (m w)) /\
    (forall w, Money.amount (m dk) <= Money.amount (m w)) /\
    registry = k1 ++ ck :: k2 /\
    (forall w, In w k1 -> Money.amount (m w) < Money.amount (m ck)) /\
    (forall w, Money.amount (m w) <= Money.amount (m ck)).
Proof. apply extremes_first. Qed.

Lemma selection_first_in_registry_witness :
  exists dk ck l1 l2 k1 k2,
    py_min par (items (balances_abc Nishant Steve Joe))
    = Ok (dk, balances_abc Nishant Steve Joe dk) /\
    py_max par (items (balances_abc Nishant Steve Joe))
    = Ok (ck, balances_abc Nishant Steve Joe ck) /\
    registry = l1 ++ dk :: l2 /\
    (forall w, In w l1 ->
               Money.amount (balances_abc Nishant Steve Joe dk)
               < Money.amount (balances_abc Nishant Steve Joe w)) /\
    (forall w, Money.amount (balances_abc Nishant Steve Joe dk)
               <= Money.amount (balances_abc Nishant Steve Joe w)) /\
    registry = k1 ++ ck :: k2 /\
    (forall w, In w k1 ->
               Money.amount (balances_abc Nishant Steve Joe w)
               < Money.amount (balances_abc Nishant Steve Joe ck)) /\
    (forall w, Money.amount (balances_abc Nishant Steve Joe w)
               <= Money.amount (balances_abc Nishant Steve Joe ck)).
Proof.
  apply (selection_first_in_registry par (balances_abc Nishant Steve Joe)).
  apply balances_abc_in_base.
Defined.

Lemma balances_flat_in_base (q : Q) : ledger_in_base (balances_flat q).
Proof. intros w. reflexivity. Qed.

(** X7. The assertion of a pass fails exactly when all balances are equal;
    so on a ledger whose balances are all equal and do not round to zero the
    loop stops with the assertion error in its first pass. *)
Theorem assertion_iff_all_equal (rate : string -> string -> Q) (m : ledger) :
  ledger_in_base m ->
  (settle_step rate m = Raise AssertionError <->
   forall w w', Money.amount (m w) == Money.amount (m w')) /\
  (all_settled m = false ->
   (forall w w', Money.amount (m w) == Money.amount (m w')) ->
   forall fuel acc, settle rate (S fuel) m acc = Raised AssertionError).
Proof.
  intros Hb.
  assert (Hiff : settle_step rate m = Raise AssertionError <->
                 forall w w', Money.amount (m w) == Money.amount (m w')).
  { destruct (extremes_first rate m Hb)
      as (dk & ck & l1 & l2 & k1 & k2 & Hd & Hc & Hr1 & Hl1 & Hmin & Hr2 & Hk1 & Hmax).
    unfold settle_step. rewrite Hd, Hc. cbn [fst snd].
    destruct (WildMan_eqb_spec ck dk) as [->|Hne]; split.
    - intros _ w w'.
      pose proof (Hmin w). pose proof (Hmax w).
      pose proof (Hmin w'). pose proof (Hmax w'). lra.
    - reflexivity.
    - discriminate.
    - intros Heq. exfalso. apply Hne.
      assert (Hd0 : dk = Nishant).
      { destruct l1 as [|x l1]; [now injection Hr1|].
        pose proof (Hl1 x (or_introl eq_refl)). pose proof (Heq dk x). lra. }
      assert (Hc0 : ck = Nishant).
      { destruct k1 as [|x k1]; [now injection Hr2|].
        pose proof (Hk1 x (or_introl eq_refl)). pose proof (Heq ck x). lra. }
      congruence. }
  split; [exact Hiff|].
  intros Hn Heq fuel acc. cbn [settle]. rewrite Hn.
  now rewrite (proj2 Hiff Heq).
Qed.

Lemma assertion_iff_all_equal_witness :
  settle par 1 (balances_flat 5) [] = Raised AssertionError.
Proof.
  apply (proj2 (assertion_iff_all_equal par (balances_flat 5)
                  (balances_flat_in_base 5))).
  - reflexivity.
  - intros w w'. reflexivity.
Defined.

Lemma balances_single_in_base (k : WildMan) (q : Q) :
  ledger_in_base (balances_single k q).
Proof.
  intros w. unfold balances_single. destruct (WildMan_eqb w k); reflexivity.
Qed.

(** X8. When one balance is more than half a cent away from zero and all
    the others are exactly zero, the loop never returns: every pass pairs
    that participant with one at zero and moves nothing, whatever the number
    of passes. *)
Theorem settle_single_balance_diverges (rate : string -> string -> Q)
    (k : WildMan) (m : ledger) :
  ledger_in_base m ->
  1#200 < Qabs (Money.amount (m k)) ->
  (forall w, w <> k -> Money.amount (m w) == 0) ->
  forall fuel acc, settle rate fuel m acc = OutOfFuel.
Proof.
  intros Hb Hk Hz fuel acc.
  destruct (Qlt_le_dec (Money.amount (m k)) 0) as [Hneg|Hpos].
  - apply (settle_stalls_neg rate k); try assumption.
    rewrite Qabs_neg in Hk by lra. lra.
  - apply (settle_stalls rate k); try assumption.
    rewrite Qabs_pos in Hk by lra. exact Hk.
Qed.

Lemma settle_single_balance_diverges_witness :
  settle par 1000 (balances_single Steve (-(5#1))) [] = OutOfFuel.
Proof.
  apply (settle_single_balance_diverges par Steve).
  - apply balances_single_in_base.
  - reflexivity.
  - intros w Hw. destruct w; try congruence; reflexivity.
Defined.

Lemma outstanding_after_run (rate : string -> string -> Q)
    (m m' : ledger) (ps : list Transaction) :
  ledger_in_base m -> emits rate m ps m' -> outstanding m' = [].
Proof.
  intros Hb Hr.
  pose proof (emits_in_base rate m m' ps Hr Hb) as Hb'.
  pose proof (emits_settled rate m m' ps Hr) as Hs.
  destruct (outstanding m') as [|[w b] l] eqn:E; [reflexivity|].
  assert (Hin : In (w, b) (outstanding m')) by (rewrite E; now left).
  apply (in_outstanding m' w b Hb') in Hin as [-> Hz].
  apply all_settled_iff with (w := w) in Hs. congruence.
Qed.

(** X9. The final check of [main] prints a line for exactly the
    participants whose balance does not round to zero, with the rounded
    balance; after the settlement loop has returned it prints nothing. *)
Theorem check_silent_after_settlement (rate : string -> string -> Q)
    (m : ledger) :
  ledger_in_base m ->
  (forall w b,
      In (w, b) (outstanding m) <->
      b = Money.round (m w) /\ Money.is_zero b = false) /\
  (forall fuel m' ps,
      settle rate fuel m [] = Done m' ps -> outstanding m' = []).
Proof.
  intros Hb. split; [intros w b; now apply in_outstanding|].
  intros fuel m' ps H. apply settle_emits in H as (ps' & _ & Hr).
  exact (outstanding_after_run rate m m' ps' Hb Hr).
Qed.

Lemma check_silent_after_settlement_witness :
  exists m' ps,
    settle par 2 (balances_abc Nishant Steve Joe) [] = Done m' ps /\
    outstanding m' = [].
Proof.
  destruct (settle par 2 (balances_abc Nishant Steve Joe) []) as [m' ps|e|] eqn:E.
  - exists m', ps. split; [reflexivity|].
    apply (proj2 (check_silent_after_settlement par _
                    (balances_abc_in_base Nishant Steve Joe)) 2%nat m' ps E).
  - vm_compute in E. discriminate.
  - vm_compute in E. discriminate.
Defined.

(** ** Construction and accumulation *)

Lemma snd_combine_map {A B : Type} (f : A -> B) (l : list A) :
  map snd (combine l (map f l)) = map f l.
Proof. induction l as [|x l IH]; simpl; [reflexivity | now rewrite IH]. Qed.

Lemma Qsum_const {A : Type} (q : Q) (l : list A) :
  Qsum (map (fun _ => q) l) == inject_Z (Z.of_nat (List.length l)) * q.
Proof.
  induction l as [|x l IH].
  - simpl. unfold inject_Z. ring.
  - cbn [map Qsum fold_right List.length]. fold (Qsum (map (fun _ : A => q) l)).
    rewrite IH, Nat2Z.inj_succ. unfold Z.succ. rewrite inject_Z_plus. ring.
Qed.

Lemma round_half_even_frac (n : Z) (d : positive) :
  (- Zpos d <= 2 * (Money.round_half_even (n # d) * Zpos d - n) <= Zpos d)%Z.
Proof.
  unfold Money.round_half_even. cbn [Qnum Qden].
  pose proof (Z.div_mod n (Zpos d) ltac:(lia)) as Hdm.
  pose proof (Z.mod_pos_bound n (Zpos d) ltac:(lia)) as Hr.
  set (f := (n / Zpos d)%Z) in *. set (r := (n mod Zpos d)%Z) in *.
  destruct (Z.compare_spec (2 * r) (Zpos d)); [destruct (Z.even f)| |]; nia.
Qed.

(** The float [1/n] times [n] is within 2^-53 of one. *)
Lemma float_recip_error (n : nat) :
  (0 < n)%nat ->
  -(1 # 9007199254740992) <= inject_Z (Z.of_nat n) * float_recip n - 1 /\
  inject_Z (Z.of_nat n) * float_recip n - 1 <= 1 # 9007199254740992.
Proof.
  intros Hn. unfold float_recip. rewrite Qred_correct.
  assert (HN : Zpos (Pos.of_nat n) = Z.of_nat n).
  { rewrite <- positive_nat_Z, Nat2Pos.id by lia. reflexivity. }
  pose proof (Z.log2_spec (Z.of_nat n) ltac:(lia)) as [Hlo Hhi].
  pose proof (Z.log2_nonneg (Z.of_nat n)) as HL.
  set (L := Z.log2 (Z.of_nat n)) in *.
  rewrite Z.pow_succ_r in Hhi by exact HL.
  assert (Hq : (0 < 2 ^ L)%Z) by (apply Z.pow_pos_nonneg; lia).
  assert (Hp : (2 ^ (53 + L) = 9007199254740992 * 2 ^ L)%Z)
    by (rewrite Z.pow_add_r by lia; reflexivity).
  pose proof (round_half_even_frac (2 ^ (53 + L)) (Pos.of_nat n)) as Hf.
  rewrite HN in Hf.
  set (m := Money.round_half_even (2 ^ (53 + L) # Pos.of_nat n)) in *.
  assert (HP : Zpos (Z.to_pos (2 ^ (53 + L))) = (2 ^ (53 + L))%Z)
    by (apply Z2Pos.id; lia).
  assert (He : inject_Z (Z.of_nat n) * (m # Z.to_pos (2 ^ (53 + L))) - 1
               == (Z.of_nat n * m - 2 ^ (53 + L) # Z.to_pos (2 ^ (53 + L)))).
  { unfold Qeq, Qminus, Qplus, Qmult, Qopp, inject_Z. cbn [Qnum Qden].
    rewrite ?Pos2Z.inj_mul, ?HP. ring. }
  rewrite He. unfold Qle. cbn [Qnum Qden Qopp]. rewrite HP, Hp in *.
  set (q := (2 ^ L)%Z) in *. split; lia.
Qed.

Lemma even_split_share_sum (a : Money) (c : WildMan)
    (rs : option (list WildMan)) (d : string) :
  recipients (Transaction_init a c rs None d) <> [] ->
  -(1 # 9007199254740992) <= share_sum (Transaction_init a c rs None d) - 1 /\
  share_sum (Transaction_init a c rs None d) - 1 <= 1 # 9007199254740992.
Proof.
  unfold share_sum. cbn [Transaction_init recipients split].
  set (l := match rs with Some l => l | None => registry end).
  intros Hne. rewrite snd_combine_map, Qsum_const.
  apply float_recip_error. destruct l; [congruence | simpl; lia].
Qed.

(** X10. A transaction built without a split shares its amount out almost
    completely: the default shares of its recipients are floats that sum to
    one within 2^-53 (for a single recipient the share is exactly one);
    with an empty list of recipients there is no share at all. *)
Theorem default_split_nearly_one (a : Money) (c : WildMan)
    (rs : option (list WildMan)) (d : string) :
  (recipients (Transaction_init a c rs None d) <> [] ->
   -(1 # 9007199254740992) <= share_sum (Transaction_init a c rs None d) - 1 /\
   share_sum (Transaction_init a c rs None d) - 1 <= 1 # 9007199254740992) /\
  (List.length (recipients (Transaction_init a c rs None d)) = 1%nat ->
   share_sum (Transaction_init a c rs None d) == 1) /\
  (recipients (Transaction_init a c rs None d) = [] ->
   split (Transaction_init a c rs None d) = [] /\
   share_sum (Transaction_init a c rs None d) == 0).
Proof.
  split; [apply even_split_share_sum|].
  unfold share_sum. cbn [Transaction_init recipients split].
  set (l := match rs with Some l => l | None => registry end).
  split.
  - intros Hl. destruct l as [|x [|y l']]; try discriminate Hl.
    vm_compute. reflexivity.
  - intros ->. split; reflexivity.
Qed.

Lemma default_split_nearly_one_witness :
  -(1 # 9007199254740992)
  <= share_sum (Transaction_init (usd 10) Joe (Some [Steve; Dim; Joe]) None
                                 EmptyString) - 1 /\
  share_sum (Transaction_init (usd 10) Joe (Some [Steve; Dim; Joe]) None
                              EmptyString) - 1
  <= 1 # 9007199254740992.
Proof.
  apply (default_split_nearly_one (usd 10) Joe (Some [Steve; Dim; Joe])
                                  EmptyString).
  discriminate.
Defined.

Section Order.
Variable rate : string -> string -> Q.

Lemma accumulate_contributions (txs : list Transaction) (w : WildMan) :
  Money.amount (accumulate rate txs w)
  == Qsum (map (fun t => contribution rate t w) txs).
Proof.
  induction txs as [|t txs IH] using rev_ind; [reflexivity|].
  rewrite accumulate_snoc, map_app, Qsum_app.
  destruct (accumulate1_spec rate (accumulate rate txs) t
                             (accumulate_in_base rate txs)) as (_ & Hw & _).
  rewrite Hw, IH. unfold contribution. simpl. ring.
Qed.

Lemma Qsum_permutation (l l' : list Q) : Permutation l l' -> Qsum l == Qsum l'.
Proof.
  induction 1; simpl.
  - reflexivity.
  - now rewrite IHPermutation.
  - ring.
  - now rewrite IHPermutation1.
Qed.

End Order.

(** X11. Each balance built by the accumulation loop is the sum, over the
    transactions, of what each one contributes to that participant; so the
    balances do not depend on the order in which the transactions are
    read. *)
Theorem accumulate_order_independent (rate : string -> string -> Q)
    (txs txs' : list Transaction) (w : WildMan) :
  Money.amount (accumulate rate txs w)
  == Qsum (map (fun t => contribution rate t w) txs) /\
  (Permutation txs txs' ->
   Money.amount (accumulate rate txs w) == Money.amount (accumulate rate txs' w)).
Proof.
  split; [apply accumulate_contributions|].
  intros HP. rewrite !accumulate_contributions.
  apply Qsum_permutation. now apply Permutation_map.
Qed.

Lemma accumulate_order_independent_witness :
  Money.amount (accumulate par [tx_uneven; tx_half] Nishant)
  == Money.amount (accumulate par [tx_half; tx_uneven] Nishant).
Proof.
  apply (accumulate_order_independent par [tx_uneven; tx_half]
                                      [tx_half; tx_uneven] Nishant).
  apply perm_swap.
Defined.

(** ** Obligations, rendering and ordering *)


Lemma index_mem (w : WildMan) (l : list WildMan) (i : nat) :
  index w l = Some i -> mem w l = true.
Proof.
  revert i. induction l as [|x l IH]; intros i; simpl; [discriminate|].
  destruct (WildMan_eqb_spec x w) as [->|Hx].
  - intros _. unfold mem. simpl. now rewrite WildMan_eqb_refl.
  - destruct (index w l) as [n|] eqn:E; [|discriminate].
    intros _. unfold mem in *. simpl. rewrite (IH n eq_refl). apply orb_true_r.
Qed.


Lemma filter_combine_notin (w : WildMan) (l : list WildMan) (sp : list Q) :
  ~ In w l ->
  filter (fun rp : WildMan * Q => WildMan_eqb (fst rp) w) (combine l sp) = [].
Proof.
  revert sp. induction l as [|x l IH]; intros [|q sp] Hn; try reflexivity.
  cbn [combine filter fst].
  rewrite WildMan_eqb_neq by (intros ->; apply Hn; now left).
  apply IH. intros H. apply Hn. now right.
Qed.


Lemma shares_of_head (w : WildMan) (l : list WildMan) :
  forall sp s rest,
    map snd (filter (fun rp : WildMan * Q => WildMan_eqb (fst rp) w)
                    (combine l sp)) = s :: rest ->
    exists i, index w l = Some i /\ nth_error sp i = Some s.
Proof.
  induction l as [|x l IH]; intros [|q sp] s rest; try discriminate.
  cbn [combine filter fst index].
  destruct (WildMan_eqb x w).
  - intros [= <- _]. now exists O.
  - intros H. destruct (IH sp s rest H) as (i & -> & Hs). now exists (S i).
Qed.

Section Views.
Variable rate : string -> string -> Q.

Lemma base_amount_sub_scale (s : Q) (a : Money) :
  base_amount rate (Money.sub rate a (Money.scale s a))
  == base_amount rate a * (1 - s).
Proof.
  unfold base_amount, Money.sub. rewrite (to_same rate (Money.scale s a)) by reflexivity.
  unfold Money.to, Money.scale. cbn [Money.amount Money.currency].
  destruct (String.eqb (Money.currency a) Money.base);
    cbn [Money.amount Money.currency]; ring.
Qed.

Lemma ledger_change (txs : list Transaction) (t : Transaction) (w : WildMan) :
  Money.amount (accumulate rate (txs ++ [t]) w)
  == Money.amount (accumulate rate txs w) + contribution rate t w.
Proof.
  rewrite accumulate_snoc.
  destruct (accumulate1_spec rate (accumulate rate txs) t
                             (accumulate_in_base rate txs)) as (_ & Hw & _).
  rewrite Hw. unfold contribution. ring.
Qed.

End Views.



(** X13. Rendering a transaction fails, with an index error, exactly when
    the payer is among the recipients at a position for which the split has
    no entry; it fails in no other way. *)
Theorem Transaction_str_raises (rate : string -> string -> Q)
    (show : Money -> string) (t : Transaction) :
  (Transaction_str rate show t = Raise IndexError <->
   exists i, index (creditor t) (recipients t) = Some i /\
             (List.length (split t) <= i)%nat) /\
  (forall e, Transaction_str rate show t = Raise e -> e = IndexError).
Proof.
  unfold Transaction_str, stramt, payer_index.
  destruct (index (creditor t) (recipients t)) as [i|] eqn:Hi.
  - rewrite (index_mem _ _ _ Hi).
    destruct (nth_error (split t) i) as [p|] eqn:Hp.
    + split; [split|]; try discriminate.
      intros (j & [= <-] & Hj). apply nth_error_None in Hj. congruence.
    + split; [split|]; [| |congruence].
      * intros _. exists i. split; [reflexivity | now apply nth_error_None].
      * reflexivity.
  - destruct (mem (creditor t) (recipients t));
      (split; [split|]; [discriminate | intros (j & Hj & _); discriminate
                                       | discriminate]).
Qed.

(** X14. The amount [__str__] shows is the payer's net credit in the ledger
    for that transaction, rounded to cents: the full amount when the payer
    is not a recipient, the amount less the payer's own share when the payer
    is listed once. *)
Theorem stramt_matches_ledger (rate : string -> string -> Q)
    (txs : list Transaction) (t : Transaction) :
  (~ In (creditor t) (recipients t) ->
   stramt rate t = Ok (amt t) /\
   base_amount rate (amt t)
   == Money.amount (accumulate rate (txs ++ [t]) (creditor t))
      - Money.amount (accumulate rate txs (creditor t))) /\
  (forall s,
      shares_of t (creditor t) = [s] ->
      stramt rate t
      = Ok (Money.round (Money.sub rate (amt t) (Money.scale s (amt t)))) /\
      base_amount rate (Money.sub rate (amt t) (Money.scale s (amt t)))
      == Money.amount (accumulate rate (txs ++ [t]) (creditor t))
         - Money.amount (accumulate rate txs (creditor t))).
Proof.
  split.
  - intros Hn. unfold stramt, payer_index. rewrite (mem_false _ _ Hn).
    split; [reflexivity|].
    rewrite ledger_change. unfold contribution, shares_of.
    rewrite (filter_combine_notin _ _ _ Hn), WildMan_eqb_refl. simpl. ring.
  - intros s Hs. unfold shares_of in Hs.
    destruct (shares_of_head _ _ _ _ _ Hs) as (i & Hi & Hp).
    unfold stramt, payer_index. rewrite (index_mem _ _ _ Hi), Hi, Hp.
    split; [reflexivity|].
    rewrite base_amount_sub_scale, ledger_change. unfold contribution, shares_of.
    rewrite Hs, WildMan_eqb_refl. simpl. ring.
Qed.

Lemma stramt_matches_ledger_witness :
  stramt par tx_uneven
  = Ok (Money.round (Money.sub par (amt tx_uneven)
                               (Money.scale (1#2) (amt tx_uneven)))) /\
  base_amount par (Money.sub par (amt tx_uneven)
                             (Money.scale (1#2) (amt tx_uneven)))
  == Money.amount (accumulate par ([] ++ [tx_uneven]) (creditor tx_uneven))
     - Money.amount (accumulate par [] (creditor tx_uneven)).
Proof.
  apply (proj2 (stramt_matches_ledger par [] tx_uneven) (1#2)).
  reflexivity.
Defined.

(** X15. The four comparisons of transactions look at the amounts only:
    for amounts in one currency [t < u] is [u > t], [t <= u] is the negation
    of [t > u], [t >= u] the negation of [t < u], [<] is transitive, and two
    transactions are unordered by [<] and [>] exactly when their amounts are
    equal, whatever their other fields. *)
Theorem transaction_order (rate : string -> string -> Q) (t u : Transaction) :
  Money.currency (amt t) = Money.currency (amt u) ->
  Transaction_lt rate t u = Transaction_gt rate u t /\
  Transaction_le rate t u = negb (Transaction_gt rate t u) /\
  Transaction_ge rate t u = negb (Transaction_lt rate t u) /\
  (Transaction_lt rate t u = false /\ Transaction_gt rate t u = false <->
   Money.amount (amt t) == Money.amount (amt u)) /\
  (forall v,
      Money.currency (amt u) = Money.currency (amt v) ->
      Transaction_lt rate t u = true -> Transaction_lt rate u v = true ->
      Transaction_lt rate t v = true).
Proof.
  intros Hc.
  unfold Transaction_lt, Transaction_gt, Transaction_le, Transaction_ge,
    Money.ltb, Money.gtb, Money.leb, Money.geb.
  rewrite (to_same rate (amt u)) by congruence.
  rewrite (to_same rate (amt t)) by congruence.
  unfold Money.Qltb. rewrite !negb_involutive. repeat split.
  - intros [H1 H2]. apply negb_false_iff, Qle_bool_iff in H1, H2. lra.
  - apply negb_false_iff, Qle_bool_iff. lra.
  - apply negb_false_iff, Qle_bool_iff. lra.
  - intros v Hv. rewrite !(to_same rate (amt v)) by congruence.
    rewrite !negb_true_iff, <- !not_true_iff_false, !Qle_bool_iff. lra.
Qed.

Lemma transaction_order_witness :
  Transaction_lt par tx_half tx_uneven = false /\
  Transaction_gt par tx_half tx_uneven = false <->
  Money.amount (amt tx_half) == Money.amount (amt tx_uneven).
Proof.
  apply (transaction_order par tx_half tx_uneven). reflexivity.
Defined.

(** X16. The amount a transaction stores is a whole number of cents, at
    most half a cent away from the amount it was built with and in the same
    currency; building a transaction from a stored amount stores it
    unchanged. *)
Theorem init_rounds_to_cents (a : Money) (c : WildMan)
    (rs : option (list WildMan)) (sp : option (list Q)) (d : string) :
  whole_cents (Money.amount (amt (Transaction_init a c rs sp d))) /\
  -(1#200) <= Money.amount (amt (Transaction_init a c rs sp d)) - Money.amount a /\
  Money.amount (amt (Transaction_init a c rs sp d)) - Money.amount a <= 1#200 /\
  Money.currency (amt (Transaction_init a c rs sp d)) = Money.currency a /\
  Money.amount
    (amt (Transaction_init (amt (Transaction_init a c rs sp d)) c rs sp d))
  == Money.amount (amt (Transaction_init a c rs sp d)).
Proof.
  cbn [Transaction_init amt Money.round Money.amount Money.currency].
  destruct (round2_error (Money.amount a)) as [H1 H2].
  repeat split; try assumption.
  - apply round2_whole_cents.
  - apply round2_fixes_cents, round2_whole_cents.
Qed.

(** ** From the transactions to the printed result *)

Section Bound.
Variable rate : string -> string -> Q.

Lemma accumulate_total_sum (txs : list Transaction) :
  total (accumulate rate txs)
  == Qsum (map (fun t => base_amount rate (amt t) * (1 - share_sum t)) txs).
Proof.
  induction txs as [|t txs IH] using rev_ind; [reflexivity|].
  rewrite accumulate_snoc, map_app, Qsum_app.
  destruct (accumulate1_spec rate (accumulate rate txs) t
                             (accumulate_in_base rate txs)) as (_ & _ & Ht).
  rewrite Ht, IH. simpl. ring.
Qed.

Lemma imbalance_bound (eps : Q) (txs : list Transaction) :
  0 <= eps ->
  Forall (fun t => - eps <= share_sum t - 1 /\ share_sum t - 1 <= eps) txs ->
  - (eps * Qsum (map (fun t => Qabs (base_amount rate (amt t))) txs))
  <= Qsum (map (fun t => base_amount rate (amt t) * (1 - share_sum t)) txs) /\
  Qsum (map (fun t => base_amount rate (amt t) * (1 - share_sum t)) txs)
  <= eps * Qsum (map (fun t => Qabs (base_amount rate (amt t))) txs).
Proof.
  intros He. induction 1 as [|t txs [H1 H2] _ IH]; [simpl; lra|].
  cbn [map Qsum fold_right].
  fold (Qsum (map (fun t => base_amount rate (amt t) * (1 - share_sum t)) txs)).
  fold (Qsum (map (fun t => Qabs (base_amount rate (amt t))) txs)).
  assert (Hb : Qabs (base_amount rate (amt t) * (1 - share_sum t))
               <= Qabs (base_amount rate (amt t)) * eps).
  { rewrite Qabs_Qmult. rewrite (Qmult_comm (Qabs (base_amount rate (amt t))) eps).
    rewrite (Qmult_comm (Qabs (base_amount rate (amt t)))).
    apply Qmult_le_compat_r; [|apply Qabs_nonneg].
    apply Qabs_Qle_condition. split; lra. }
  apply Qabs_Qle_condition in Hb. lra.
Qed.

End Bound.

(** X17. When every transaction is built without a split and has at least
    one recipient, and the amounts (in the base currency) add up to no more
    than 2^53/200, about 45 million million, the ledger sums to zero within
    the rounding tolerance, the settlement loop returns within
    [participant_count - 1] passes with at most that many payments, and the
    final check prints nothing. *)
Theorem even_split_bills_settle (rate : string -> string -> Q)
    (txs : list Transaction) :
  Forall (fun t => exists a c rs d,
                     t = Transaction_init a c rs None d /\ recipients t <> [])
         txs ->
  Qsum (map (fun t => Qabs (base_amount rate (amt t))) txs)
  <= 9007199254740992 # 200 ->
  zero_sum (accumulate rate txs) /\
  exists m' ps,
    settle rate (participant_count - 1) (accumulate rate txs) [] = Done m' ps /\
    (List.length ps <= participant_count - 1)%nat /\
    outstanding m' = [].
Proof.
  intros HF Hsum.
  assert (HS : Forall (fun t => - (1 # 9007199254740992) <= share_sum t - 1 /\
                                share_sum t - 1 <= 1 # 9007199254740992) txs).
  { eapply Forall_impl; [|exact HF]. cbv beta.
    intros t (a & c & rs & d & -> & Hne). now apply even_split_share_sum. }
  assert (Hz : zero_sum (accumulate rate txs)).
  { apply zero_sum_iff. rewrite accumulate_total_sum.
    destruct (imbalance_bound rate (1 # 9007199254740992) txs
                ltac:(discriminate) HS) as [H1 H2].
    split; lra. }
  split; [exact Hz|].
  destruct (settle_returns rate (participant_count - 1) (accumulate rate txs) []
              (accumulate_in_base rate txs) Hz
              (nonzero_count_le _)) as (m' & ps & H & Hl).
  exists m', ps. cbn [app] in H. repeat split; try assumption.
  apply settle_emits in H as (ps' & _ & Hr).
  exact (outstanding_after_run rate _ m' ps' (accumulate_in_base rate txs) Hr).
Qed.

Lemma even_split_bills_settle_witness :
  zero_sum (accumulate par [tx_even Nishant EmptyString;
                            Transaction_init (usd 10) Joe (Some [Steve; Dim; Joe])
                                             None EmptyString]) /\
  exists m' ps,
    settle par (participant_count - 1)
           (accumulate par [tx_even Nishant EmptyString;
                            Transaction_init (usd 10) Joe (Some [Steve; Dim; Joe])
                                             None EmptyString]) []
    = Done m' ps /\
    (List.length ps <= participant_count - 1)%nat /\
    outstanding m' = [].
Proof.
  apply (even_split_bills_settle par).
  - constructor; [|constructor; [|constructor]].
    + exists (usd 100), Nishant, None, EmptyString.
      split; [reflexivity|discriminate].
    + exists (usd 10), Joe, (Some [Steve; Dim; Joe]), EmptyString.
      split; [reflexivity|discriminate].
  - apply Qle_bool_iff. vm_compute. reflexivity.
Defined.
